(** * Liteshift: the four calculators (compound, drawdown, FIRE, mortgage)

    A shallow embedding of [apps/*/backend/main.py].  Every function of the
    Python sources is written once, over an abstract arithmetic ([Arith]),
    and then read at two instances:

    - [float_arith]: IEEE-754 binary64 through Rocq's primitive floats, the
      arithmetic the Python program really runs on (NaN, infinities,
      rounding and overflow included);
    - [Q_arith]: exact rational arithmetic, the idealisation in which the
      algebraic properties of the calculators are stated (no rounding, no
      overflow, no NaN).

    The transcendental functions of libm ([exp], [sqrt], [pow]) and NumPy's
    global Mersenne-Twister generator are not re-implemented: they are the
    classes [Libm] and [Rng], over which every statement quantifies. *)

From Stdlib Require Import ZArith QArith Qround Qabs Lia Lqa Bool List Sorted.
From Stdlib Require Import Floats.
From Stdlib Require Import Qpower.
From stdpp Require Import base option list gmap.

Local Open Scope Z_scope.

(** ** Python exceptions and the error monad *)

Inductive exn : Type :=
  | ZeroDivisionError
  | OverflowError
  | ValueError
  | IndexError
  | ValidationError.

Inductive result (A : Type) : Type :=
  | Ok (a : A)
  | Raise (e : exn).
Arguments Ok {A} a.
Arguments Raise {A} e.

#[global] Instance result_ret : MRet result := fun A a => Ok a.
#[global] Instance result_bind : MBind result := fun A B f m =>
  match m with Ok a => f a | Raise e => Raise e end.
#[global] Instance result_fmap : FMap result := fun A B f m =>
  match m with Ok a => Ok (f a) | Raise e => Raise e end.

(** [mapM] of the error monad, left to right, as a Python comprehension
    evaluates its elements. *)
Fixpoint traverse {A B : Type} (f : A -> result B) (l : list A) : result (list B) :=
  match l with
  | [] => Ok []
  | a :: l' => b ← f a; bs ← traverse f l'; Ok (b :: bs)
  end.

(** ** The arithmetic interface *)

Class Arith (num : Type) : Type := {
  of_Z : Z -> num;                  (* int -> float conversion *)
  add : num -> num -> num;
  sub : num -> num -> num;
  mul : num -> num -> num;
  div : num -> num -> num;          (* IEEE/NumPy division: never raises *)
  ltb : num -> num -> bool;
  leb : num -> num -> bool;
  eqb : num -> num -> bool;
  fabs : num -> num;
  isnan : num -> bool;
  isposinf : num -> bool;
  isneginf : num -> bool;
  floorZ : num -> Z;                (* floor, as an index *)
  rint : num -> num;                (* round half to even, to an integer *)
  finfo_max : num;                  (* np.finfo(float).max *)
}.

Declare Scope num_scope.
Delimit Scope num_scope with num.
Infix ".+" := add (at level 50, left associativity) : num_scope.
Infix ".-" := sub (at level 50, left associativity) : num_scope.
Infix ".*" := mul (at level 40, left associativity) : num_scope.
Infix "./" := div (at level 40, left associativity) : num_scope.
Infix ".<" := ltb (at level 70, no associativity) : num_scope.
Infix ".<=" := leb (at level 70, no associativity) : num_scope.
Infix ".==" := eqb (at level 70, no associativity) : num_scope.
Local Open Scope num_scope.

(** libm: [np.exp], [np.sqrt], and C's [pow] behind both Python's [**] and
    [np.power]. *)
Class Libm (num : Type) : Type := {
  fexp : num -> num;
  fsqrt : num -> num;
  fpow : num -> num -> num;
}.

(** NumPy's legacy global generator: [np.random.seed(s)] builds a state
    from an integer, [legacy_gauss] draws one standard normal and advances
    the state. *)
Class Rng (num : Type) : Type := {
  rng_state : Type;
  mt_seed : Z -> rng_state;
  legacy_gauss : rng_state -> num * rng_state;
}.

(** *** Binary64 *)

Module Binary64.

Definition Z2f (z : Z) : float :=
  SF2Prim (binary_normalize prec emax z 0 false).

(** Floor of a finite float; 0 for NaN and the infinities (NumPy never
    indexes with those here). *)
Definition floor (x : float) : Z :=
  match Prim2SF x with
  | S754_finite s m e =>
      let v := if s then Z.neg m else Z.pos m in
      if (0 <=? e)%Z then v * 2 ^ e else v / 2 ^ (- e)
  | _ => 0
  end.

Definition two52 : float := Eval compute in Z2f (2 ^ 52).

(** C's [rint] in the default rounding mode. *)
Definition rint (x : float) : float :=
  if PrimFloat.ltb (PrimFloat.abs x) two52 then
    if PrimFloat.ltb x PrimFloat.zero
    then PrimFloat.opp (PrimFloat.sub (PrimFloat.add (PrimFloat.opp x) two52) two52)
    else PrimFloat.sub (PrimFloat.add x two52) two52
  else x.

Definition max_float : float :=
  Eval compute in Z2f ((2 ^ 53 - 1) * 2 ^ 971).

End Binary64.

#[global] Instance float_arith : Arith float := {|
  of_Z := Binary64.Z2f;
  add := PrimFloat.add;
  sub := PrimFloat.sub;
  mul := PrimFloat.mul;
  div := PrimFloat.div;
  ltb := PrimFloat.ltb;
  leb := PrimFloat.leb;
  eqb := PrimFloat.eqb;
  fabs := PrimFloat.abs;
  isnan := PrimFloat.is_nan;
  isposinf := fun x => PrimFloat.eqb x infinity;
  isneginf := fun x => PrimFloat.eqb x neg_infinity;
  floorZ := Binary64.floor;
  rint := Binary64.rint;
  finfo_max := Binary64.max_float;
|}.

(** *** Exact rationals

    [Q] has no NaN and no infinity: [isnan], [isposinf] and [isneginf] are
    constantly false, and a
    division by zero yields 0 (Rocq's convention) where IEEE yields an
    infinity or NaN.  [finfo_max] is never reached. *)

Module Exact.

(** Round half to even. *)
Definition rint (x : Q) : Q :=
  let f := Qfloor x in
  let r := (x - inject_Z f)%Q in
  match (r ?= 1 # 2)%Q with
  | Lt => inject_Z f
  | Gt => inject_Z (f + 1)
  | Eq => inject_Z (if Z.even f then f else f + 1)
  end.

End Exact.

#[global] Instance Q_arith : Arith Q := {|
  of_Z := inject_Z;
  add := Qplus;
  sub := Qminus;
  mul := Qmult;
  div := Qdiv;
  ltb := fun x y => negb (Qle_bool y x);
  leb := Qle_bool;
  eqb := Qeq_bool;
  fabs := Qabs;
  isnan := fun _ => false;
  isposinf := fun _ => false;
  isneginf := fun _ => false;
  floorZ := Qfloor;
  rint := Exact.rint;
  finfo_max := 0%Q;
|}.

(** ** Python and NumPy primitives used by the calculators *)

Section Numeric.
Context {num : Type} {arith : Arith num}.

Definition zero : num := of_Z 0.
Definition one : num := of_Z 1.

(** A decimal literal [n/d] of the sources ([0.5] is [lit 1 2], [1e-12] is
    [lit 1 (10^12)]): numerator and denominator are exact in binary64, so
    the one division rounds as the literal does. *)
Definition lit (n d : Z) : num := of_Z n ./ of_Z d.

Definition nan : num := zero ./ zero.

Definition isfinite (x : num) : bool :=
  negb (isnan x || isposinf x || isneginf x).

(** Python's binary [max(a, b)]: the first argument unless the second is
    strictly greater. *)
Definition py_max (a b : num) : num := if a .< b then b else a.

(** Python's [x / y] on floats. *)
Definition py_div (x y : num) : result num :=
  if y .== zero then Raise ZeroDivisionError else Ok (x ./ y).

(** [np.maximum] and [np.minimum]: a NaN operand wins. *)
Definition np_maximum (a b : num) : num :=
  if isnan a then a else if isnan b then b else if a .< b then b else a.
Definition np_minimum (a b : num) : num :=
  if isnan a then a else if isnan b then b else if b .< a then b else a.

(** [np.maximum.accumulate]. *)
Fixpoint accumulate_from (peak : num) (xs : list num) : list num :=
  match xs with
  | [] => []
  | x :: xs' => let p := np_maximum peak x in p :: accumulate_from p xs'
  end.
Definition maximum_accumulate (xs : list num) : list num :=
  match xs with
  | [] => []
  | x :: xs' => x :: accumulate_from x xs'
  end.

(** [np.nan_to_num(x, nan=vn, posinf=vp, neginf=vm)]. *)
Definition nan_to_num (vn vp vm x : num) : num :=
  if isnan x then vn
  else if isposinf x then vp
  else if isneginf x then vm
  else x.

(** [np.nan_to_num(x)] with NumPy's defaults: NaN becomes 0, the infinities
    become the largest finite doubles. *)
Definition nan_to_num_default (x : num) : num :=
  nan_to_num zero finfo_max (zero .- finfo_max) x.

(** [tolist_safe] (compound) and [sanitize_list] (drawdown, FIRE). *)
Definition sanitize_list (xs : list num) : list num :=
  map (nan_to_num zero zero zero) xs.
Definition tolist_safe : list num -> list num := sanitize_list.

(** [sanitize_float]. *)
Definition sanitize_float (x : num) : num := nan_to_num_default x.

(** NumPy's [power_of_ten] (a table up to 1e8, repeated products above). *)
Definition power_of_ten (n : Z) : num :=
  if n <? 9 then of_Z (10 ^ n)
  else Nat.iter (Z.to_nat (n - 9)) (fun r => r .* of_Z 10) (of_Z (10 ^ 9)).

(** [np.round(x, d)] for [d >= 0]: [rint] alone when [d = 0], otherwise
    multiply, [rint], divide. *)
Definition np_round (d : Z) (x : num) : num :=
  if d =? 0 then rint x
  else let p := power_of_ten d in rint (x .* p) ./ p.

Definition round_float (x : num) (d : Z) : num := np_round d x.
Definition round_list (xs : list num) (d : Z) : list num := map (np_round d) xs.

(** [np.sum] and [np.mean] of a one-dimensional array, accumulated left to
    right. *)
Definition np_sum (xs : list num) : num := fold_left add xs zero.
Definition np_mean (xs : list num) : num :=
  np_sum xs ./ of_Z (Z.of_nat (length xs)).

(** The mean of a boolean mask ([np.mean(final >= target)]). *)
Definition mean_mask (bs : list bool) : num :=
  np_mean (map (fun b : bool => if b then one else zero) bs).

(** Sorting as NumPy orders floats: ascending, NaN last. *)
Definition sort_le (x y : num) : bool :=
  if isnan y then true else if isnan x then false else x .<= y.

Fixpoint insert_sorted (x : num) (l : list num) : list num :=
  match l with
  | [] => [x]
  | y :: l' => if sort_le x y then x :: y :: l' else y :: insert_sorted x l'
  end.

Definition np_sort (l : list num) : list num :=
  fold_right insert_sorted [] l.

(** Python indexing [l[i]], a negative [i] counting from the end. *)
Definition py_index (l : list num) (i : Z) : result num :=
  let n := Z.of_nat (length l) in
  let j := if i <? 0 then i + n else i in
  if (j <? 0) || (n <=? j) then Raise IndexError
  else Ok (nth (Z.to_nat j) l zero).

(** NumPy's [_lerp]. *)
Definition lerp (a b t : num) : num :=
  let diff_b_a := b .- a in
  if lit 1 2 .<= t then b .- diff_b_a .* (one .- t)
  else a .+ diff_b_a .* t.

(** [np.percentile(a, q)] of one column, [method='linear']: the virtual
    index [(n-1)*q/100], its neighbours (both the last element when the
    index reaches the end, both the first when it is negative), and the
    interpolation between them; a column holding a NaN yields that NaN. *)
Definition percentile (a : list num) (q : Z) : result num :=
  let n := Z.of_nat (length a) in
  let arr := np_sort a in
  let quantile := of_Z q ./ of_Z 100 in
  let virtual_index := of_Z (n - 1) .* quantile in
  let above := of_Z (n - 1) .<= virtual_index in
  let below := virtual_index .< zero in
  let previous_index :=
    if above then -1 else if below then 0 else floorZ virtual_index in
  let next_index :=
    if above then -1 else if below then 0 else floorZ virtual_index + 1 in
  previous ← py_index arr previous_index;
  next ← py_index arr next_index;
  last ← py_index arr (-1);
  let gamma := virtual_index .- of_Z previous_index in
  if isnan last then Ok last else Ok (lerp previous next gamma).

(** [np.median] of one column: the middle element, or the mean of the two
    middle ones; NaN for a column holding a NaN, and for an empty one. *)
Definition np_median (a : list num) : num :=
  let n := length a in
  let arr := np_sort a in
  if isnan (List.last arr zero) then List.last arr zero
  else if Nat.even n
  then np_mean (match n with
                | O => []
                | _ => [nth (n / 2 - 1)%nat arr zero; nth (n / 2)%nat arr zero]
                end)
  else np_mean [nth (n / 2)%nat arr zero].

(** A matrix is the list of its rows; [column M t] is [M[:, t]]. *)
Definition column (M : list (list num)) (t : nat) : list num :=
  map (fun row => nth t row zero) M.

(** [np.percentile(M, q, axis=0)] for a matrix of [ncols] columns. *)
Definition percentile_axis0 (M : list (list num)) (ncols : nat) (q : Z)
  : result (list num) :=
  traverse (fun t => percentile (column M t) q) (seq 0 ncols).

(** [np.argmin]: the first index of the minimum, a NaN counting as the
    minimum. *)
Fixpoint argmin_from (best : num) (ibest i : nat) (xs : list num) : nat :=
  match xs with
  | [] => ibest
  | x :: xs' =>
      if negb (isnan best) && (isnan x || (x .< best))
      then argmin_from x i (S i) xs'
      else argmin_from best ibest (S i) xs'
  end.
Definition np_argmin (xs : list num) : nat :=
  match xs with
  | [] => O
  | x :: xs' => argmin_from x 0%nat 1%nat xs'
  end.

(** [np.nanmin]: the minimum of the entries that are not NaN (NaN when
    there is none). *)
Definition np_nanmin (xs : list num) : num :=
  match filter (fun x => negb (isnan x)) xs with
  | [] => nan
  | x :: xs' => fold_left (fun m y => if y .< m then y else m) xs' x
  end.

(** [arr.min()] of one row. *)
Definition np_min (xs : list num) : num :=
  match xs with
  | [] => nan
  | x :: xs' => fold_left np_minimum xs' x
  end.

(** [np.argmax(mask)]: the first [True], 0 when there is none. *)
Fixpoint first_true (bs : list bool) (i : nat) : option nat :=
  match bs with
  | [] => None
  | b :: bs' => if b then Some i else first_true bs' (S i)
  end.
Definition argmax_mask (bs : list bool) : nat :=
  default 0%nat (first_true bs 0%nat).

(** [np.cumprod] of one row. *)
Fixpoint cumprod_from (acc : num) (xs : list num) : list num :=
  match xs with
  | [] => []
  | x :: xs' => let p := acc .* x in p :: cumprod_from p xs'
  end.
Definition np_cumprod (xs : list num) : list num :=
  match xs with
  | [] => []
  | x :: xs' => x :: cumprod_from x xs'
  end.

End Numeric.

(** Python's [x ** y] on floats: C's [pow], with the two exceptions CPython
    raises around it. *)
Definition py_pow {num : Type} {arith : Arith num} {libm : Libm num} (x y : num) : result num :=
  if (x .== zero) && (y .< zero) then Raise ZeroDivisionError
  else
    let r := fpow x y in
    if (isposinf r || isneginf r) && isfinite x && isfinite y
    then Raise OverflowError
    else Ok r.

(** ** Calendar dates ([datetime.date], [calendar.monthrange]) *)

Record date : Type := Date { year : Z; month : Z; day : Z }.

Definition is_leap (y : Z) : bool :=
  (y mod 4 =? 0) && (negb (y mod 100 =? 0) || (y mod 400 =? 0)).

(** [calendar.monthrange(y, m)[1]]. *)
Definition days_in_month (y m : Z) : Z :=
  if m =? 2 then (if is_leap y then 29 else 28)
  else if (m =? 4) || (m =? 6) || (m =? 9) || (m =? 11) then 30
  else 31.

(** [add_months]; [date(y, m, day)] raises [ValueError] outside the years
    1..9999. *)
Definition add_months (d : date) (months : Z) : result date :=
  let y := year d + (month d - 1 + months) / 12 in
  let m := (month d - 1 + months) mod 12 + 1 in
  let dd := Z.min (day d) (days_in_month y m) in
  if (1 <=? y) && (y <=? 9999) then Ok (Date y m dd) else Raise ValueError.

(** ** The amortization calculator ([apps/mortgage/backend/main.py]) *)

Module Mortgage.
Section Mortgage.
Context {num : Type} {arith : Arith num} {libm : Libm num}.

Definition _pmt (balance i : num) (n : Z) : result num :=
  if n <=? 0 then Ok balance
  else if fabs i .< lit 1 (10 ^ 12) then Ok (balance ./ of_Z n)
  else
    p ← py_pow (one .+ i) (of_Z (- n));
    py_div (balance .* i) (one .- p).

Record ExtraPayment : Type := {
  ep_year : Z;
  ep_month : Z;
  ep_amount : num;
}.

Record MortgageRequest : Type := {
  principal : num;
  term_years : Z;
  fixed_years : Z;
  fixed_rate : num;
  variable_rate : num;
  monthly_overpayment : num;
  extra_payments : option (list ExtraPayment);
  start_date : option date;
  recalc_on_rate_change : bool;
  decimals : Z;
}.

(** The five lists [_amortize] builds and returns. *)
Record schedule : Type := {
  balances : list num;
  sched : list num;
  totalp : list num;
  interest : list num;
  principal_paid : list num;
}.

Record summary : Type := {
  payoff_months : Z;
  payoff_date : date;
  baseline_payoff_months : Z;
  baseline_payoff_date : date;
  total_interest : num;
  baseline_total_interest : num;
  interest_saved : num;
  months_saved : Z;
  ending_balance : num;
  is_balloon : bool;
  fixed_months : Z;
}.

(** [MortgageResponse]; a label is kept as the date whose [isoformat()]
    the program sends. *)
Record MortgageResponse : Type := {
  r_labels : list date;
  r_balance : list num;
  r_baseline_balance : list num;
  r_schedule_payment : list num;
  r_total_payment : list num;
  r_interest : list num;
  r_principal : list num;
  r_summary : summary;
}.

Section Amortize.
Variables (term_m fixed_m : Z) (i_fixed i_var monthly_overpay : num).
Variables (extra_map : gmap Z num) (recalc_on_change : bool).

(** The body of [for m in range(1, term_m + 1)], over the months still to
    run; [break] ends the recursion. *)
Fixpoint amortize_loop (ms : list Z) (bal pmt : num) (acc : schedule)
  : result schedule :=
  match ms with
  | [] => Ok acc
  | m :: ms' =>
      let current_rate := if m <=? fixed_m then i_fixed else i_var in
      pmt ← (if recalc_on_change && (m =? fixed_m + 1)
             then _pmt bal current_rate (term_m - (m - 1))
             else Ok pmt);
      let intr := bal .* current_rate in
      let lump := default zero (extra_map !! m) in
      let pay_total := pmt .+ monthly_overpay .+ lump in
      let new_bal := bal .+ intr .- pay_total in
      let princ_actual := pay_total .- intr in
      let new_bal :=
        if (new_bal .< zero) && (lit (-1) (10 ^ 6) .< new_bal)
        then zero else new_bal in
      let acc := {| balances := balances acc ++ [new_bal];
                    sched := sched acc ++ [pmt];
                    totalp := totalp acc ++ [pay_total];
                    interest := interest acc ++ [intr];
                    principal_paid := principal_paid acc ++ [princ_actual] |} in
      if new_bal .<= zero then Ok acc
      else amortize_loop ms' new_bal pmt acc
  end.

End Amortize.

Definition _amortize (principal : num) (term_m fixed_m : Z)
    (fixed_r_yr var_r_yr monthly_overpay : num)
    (extra_map : gmap Z num) (recalc_on_change : bool) : result schedule :=
  let bal := principal in
  let i_fixed := fixed_r_yr ./ of_Z 12 in
  let i_var := var_r_yr ./ of_Z 12 in
  pmt ← _pmt bal i_fixed term_m;
  amortize_loop term_m fixed_m i_fixed i_var monthly_overpay extra_map
    recalc_on_change (seqZ 1 term_m) bal pmt
    {| balances := [bal]; sched := []; totalp := []; interest := [];
       principal_paid := [] |}.

(** The loop over [req.extra_payments]: lumps keyed by month index, those
    outside [1..term_m] dropped, those on one month added up. *)
Definition add_extra (term_m : Z) (extra_map : gmap Z num) (ep : ExtraPayment)
  : gmap Z num :=
  let idx := ep_year ep * 12 + ep_month ep + 1 in
  if (1 <=? idx) && (idx <=? term_m)
  then <[idx := default zero (extra_map !! idx) .+ ep_amount ep]> extra_map
  else extra_map.

Definition build_extra_map (term_m : Z) (eps : option (list ExtraPayment))
  : gmap Z num :=
  match eps with
  | None => ∅
  | Some l => fold_left (add_extra term_m) l ∅
  end.

(** [_pad]: [arr[:L]], or [arr] followed by copies of its last element. *)
Definition _pad (arr : list num) (L : Z) : result (list num) :=
  let n := Z.of_nat (length arr) in
  if L <=? n then
    Ok (take (Z.to_nat (if L <? 0 then n + L else L)) arr)
  else
    last ← py_index arr (-1);
    Ok (arr ++ replicate (Z.to_nat (L - n)) last).

(** [_payoff_month]: the first index with a balance [<= 0], else the last
    index. *)
Fixpoint first_paid (bals : list num) (i : Z) : option Z :=
  match bals with
  | [] => None
  | v :: bals' => if v .<= zero then Some i else first_paid bals' (i + 1)
  end.
Definition _payoff_month (bals : list num) : Z :=
  default (Z.of_nat (length bals) - 1) (first_paid bals 0).

Definition mortgage (today : date) (req : MortgageRequest)
  : result MortgageResponse :=
  let P := principal req in
  let term_m := term_years req * 12 in
  let fixed_m := fixed_years req * 12 in
  let fixed_r := fixed_rate req in
  let var_r := variable_rate req in
  let overpay := monthly_overpayment req in
  let start_d := default today (start_date req) in
  let d := Z.max 0 (decimals req) in
  let extra_map := build_extra_map term_m (extra_payments req) in
  main ← _amortize P term_m fixed_m fixed_r var_r overpay extra_map
           (recalc_on_rate_change req);
  base ← _amortize P term_m fixed_m fixed_r var_r zero ∅
           (recalc_on_rate_change req);
  let L := Z.max (Z.of_nat (length (balances main)))
                 (Z.of_nat (length (balances base))) in
  labels ← traverse (add_months start_d) (seqZ 0 L);
  balances' ← _pad (balances main) L;
  baseline_balance ← _pad (balances base) L;
  sched' ← _pad (sched main) (L - 1);
  totalp' ← _pad (totalp main) (L - 1);
  intr ← _pad (interest main) (L - 1);
  princ ← _pad (principal_paid main) (L - 1);
  let m_off := _payoff_month balances' in
  let m_base := _payoff_month (balances base) in
  let total_interest := np_sum intr in
  let baseline_interest := np_sum (interest base) in
  let interest_saved := py_max zero (baseline_interest .- total_interest) in
  let months_saved := Z.max 0 (m_base - m_off) in
  ending_balance ← py_index balances' (-1);
  payoff_d ← add_months start_d m_off;
  baseline_payoff_d ← add_months start_d m_base;
  Ok {| r_labels := labels;
        r_balance := round_list balances' d;
        r_baseline_balance := round_list baseline_balance d;
        r_schedule_payment := round_list (zero :: sched') d;
        r_total_payment := round_list (zero :: totalp') d;
        r_interest := round_list (zero :: intr) d;
        r_principal := round_list (zero :: princ) d;
        r_summary :=
          {| payoff_months := m_off;
             payoff_date := payoff_d;
             baseline_payoff_months := m_base;
             baseline_payoff_date := baseline_payoff_d;
             total_interest := round_float total_interest d;
             baseline_total_interest := round_float baseline_interest d;
             interest_saved := round_float interest_saved d;
             months_saved := months_saved;
             ending_balance := round_float ending_balance d;
             is_balloon := zero .< ending_balance;
             fixed_months := fixed_m |} |}.

End Mortgage.
End Mortgage.

(** ** The process state a request runs in *)

Section World.
Context {num : Type} {arith : Arith num} {rng : Rng num}.

(** What a handler reads besides its request: NumPy's global generator as
    earlier requests left it, the state fresh operating-system entropy
    would seed ([np.random.seed(None)]), and today's date. *)
Record world : Type := {
  np_random : rng_state;
  os_entropy : rng_state;
  today : date;
}.

(** [np.random.seed(seed)]: an integer seed must lie in [0, 2^32). *)
Definition np_random_seed (seed : option Z) (w : world) : result rng_state :=
  match seed with
  | None => Ok (os_entropy w)
  | Some s =>
      if (0 <=? s) && (s <? 2 ^ 32) then Ok (mt_seed s) else Raise ValueError
  end.

Fixpoint gauss_row (k : nat) (st : rng_state) : list num * rng_state :=
  match k with
  | O => ([], st)
  | S k' =>
      let '(z, st1) := legacy_gauss st in
      let '(zs, st2) := gauss_row k' st1 in
      (z :: zs, st2)
  end.

Fixpoint gauss_matrix (n k : nat) (st : rng_state)
  : list (list num) * rng_state :=
  match n with
  | O => ([], st)
  | S n' =>
      let '(r, st1) := gauss_row k st in
      let '(rs, st2) := gauss_matrix n' k st1 in
      (r :: rs, st2)
  end.

(** [np.random.randn(n, T)]: [n*T] draws, row by row. *)
Definition randn (n T : Z) (st : rng_state)
  : result (list (list num) * rng_state) :=
  if (n <? 0) || (T <? 0) then Raise ValueError
  else Ok (gauss_matrix (Z.to_nat n) (Z.to_nat T) st).

(** [np.random.normal(loc, scale, size=(n, T))]. *)
Definition random_normal (loc scale : num) (n T : Z) (st : rng_state)
  : result (list (list num) * rng_state) :=
  if scale .< zero then Raise ValueError
  else
    '(Z, st') ← randn n T st;
    Ok (map (map (fun z => loc .+ scale .* z)) Z, st').

End World.

(** ** The compound-growth calculator ([apps/compound/backend/main.py]) *)

Module Compound.
Section Compound.
Context {num : Type} {arith : Arith num} {libm : Libm num} {rng : Rng num}.

Record SimRequest : Type := {
  initial : num;
  annual_contribution : num;
  contribution_growth : num;
  years : Z;
  n_sims : Z;
  expected_return : num;
  volatility : num;
  expense_ratio : num;
  inflation : num;
  target : option num;
  frequency : Z;
  seed : option Z;
}.

(** The [Field] constraints of [SimRequest], as the request boundary
    enforces them before [simulate] runs. *)
Definition SimRequest_valid (req : SimRequest) : bool :=
  (zero .<= initial req)
  && (zero .<= annual_contribution req)
  && (zero .<= contribution_growth req)
  && (1 <=? years req) && (years req <=? 80)
  && (50 <=? n_sims req) && (n_sims req <=? 20000)
  && (zero .<= expense_ratio req)
  && (zero .<= inflation req)
  && match target req with None => true | Some t => zero .<= t end
  && (1 <=? frequency req) && (frequency req <=? 12).

Record percentiles : Type := {
  p10 : list num;
  p25 : list num;
  p50 : list num;
  p75 : list num;
  p90 : list num;
  p50_real : list num;
}.

Record summary : Type := {
  expected_final : num;
  median_final : num;
  p10_final : num;
  p90_final : num;
  prob_hit_target : option num;
}.

Record insights : Type := {
  median_cagr : num;
  median_max_drawdown : num;
  total_contrib : num;
  real_median_final : num;
}.

(** The advisory strings, by kind; the first carries the [ratio] its text
    is formatted from. *)
Inductive suggestion : Type :=
  | IncreaseContributions (ratio : num)
  | OnTrack
  | HighExpenseRatio
  | HighVolatility.

Record SimResponse : Type := {
  times : list Z;
  r_percentiles : percentiles;
  r_summary : summary;
  r_insights : insights;
  r_suggestions : list suggestion;
}.

(** [contrib_schedule]: the yearly amounts
    [annual_contribution * (1 + contribution_growth)**y], each divided by
    [frequency] and repeated [frequency] times. *)
Definition contrib_schedule (req : SimRequest) : result (list num) :=
  contrib_per_year ←
    traverse (fun y =>
                p ← py_pow (one .+ contribution_growth req) (of_Z y);
                Ok (annual_contribution req .* p))
             (seqZ 0 (years req));
  if frequency req <? 0 then Raise ValueError
  else Ok (flat_map (fun c => replicate (Z.to_nat (frequency req))
                                (c ./ of_Z (frequency req)))
                    contrib_per_year).

(** One row of [wealth], after column 0. *)
Fixpoint wealth_path (w : num) (growth contrib : list num) : list num :=
  match growth, contrib with
  | g :: growth', c :: contrib' =>
      let w' := w .* g .+ c in
      w' :: wealth_path w' growth' contrib'
  | _, _ => []
  end.

(** Lines 33-53: the seeded draws and the wealth matrix. *)
Definition simulate_wealth (req : SimRequest) (w : world)
  : result (list (list num) * list num) :=
  st ← np_random_seed (seed req) w;
  let T := years req * frequency req in
  dt ← py_div one (of_Z (frequency req));
  let mu_net := expected_return req .- expense_ratio req in
  vol2 ← py_pow (volatility req) (of_Z 2);
  let drift := (mu_net .- lit 1 2 .* vol2) .* dt in
  let vol := volatility req .* fsqrt dt in
  schedule ← contrib_schedule req;
  '(shocks, _) ← random_normal drift vol (n_sims req) T st;
  let growth_factors := map (map fexp) shocks in
  Ok (map (fun growth => initial req :: wealth_path (initial req) growth schedule)
          growth_factors,
      schedule).

Definition simulate_paths (req : SimRequest) (w : world) : result SimResponse :=
  '(wealth, schedule) ← simulate_wealth req w;
  let T := years req * frequency req in
  let ncols := Z.to_nat (T + 1) in
  let dt := one ./ of_Z (frequency req) in
  let inflation_factor :=
    map (fun t => fpow (one .+ inflation req) (of_Z t .* dt)) (seqZ 0 (T + 1)) in
  let wealth_real :=
    map (fun row => zip_with div row inflation_factor) wealth in
  q10 ← percentile_axis0 wealth ncols 10;
  q25 ← percentile_axis0 wealth ncols 25;
  q50 ← percentile_axis0 wealth ncols 50;
  q75 ← percentile_axis0 wealth ncols 75;
  q90 ← percentile_axis0 wealth ncols 90;
  q50_real ← percentile_axis0 wealth_real ncols 50;
  let pct := {| p10 := tolist_safe q10; p25 := tolist_safe q25;
                p50 := tolist_safe q50; p75 := tolist_safe q75;
                p90 := tolist_safe q90; p50_real := tolist_safe q50_real |} in
  let final := column wealth (Z.to_nat T) in
  f10 ← percentile final 10;
  f90 ← percentile final 90;
  let summ := {| expected_final := nan_to_num_default (np_mean final);
                 median_final := nan_to_num_default (np_median final);
                 p10_final := nan_to_num_default f10;
                 p90_final := nan_to_num_default f90;
                 prob_hit_target :=
                   match target req with
                   | None => None
                   | Some tg => Some (mean_mask (map (fun f => tg .<= f) final))
                   end |} in
  let median_path := p50 pct in
  let running_max := maximum_accumulate median_path in
  let safe_den := map (fun r => if r .<= zero then one else r) running_max in
  let drawdowns :=
    zip_with div (zip_with sub median_path running_max) safe_den in
  let max_dd :=
    if (1 <? length drawdowns)%nat then np_nanmin (tail drawdowns) else zero in
  last_median ← py_index median_path (-1);
  let cagr :=
    if zero .< last_median then
      let pos_idx := argmax_mask (map (fun m => zero .< m) median_path) in
      let base := nth pos_idx median_path zero in
      if zero .< base then
        let years_elapsed :=
          of_Z (Z.of_nat (length median_path) - 1 - Z.of_nat pos_idx)
          ./ of_Z (frequency req) in
        fpow (last_median ./ base)
             (one ./ py_max years_elapsed (lit 1 (10 ^ 9))) .- one
      else zero
    else zero in
  real_last ← py_index (p50_real pct) (-1);
  let ins := {| median_cagr := nan_to_num_default cagr;
                median_max_drawdown := nan_to_num_default max_dd;
                total_contrib := np_sum schedule;
                real_median_final := real_last |} in
  target_note ←
    match target req with
    | Some tg =>
        if tg .== zero then Ok []
        else
          ratio ← py_div tg (median_final summ .+ lit 1 (10 ^ 9));
          if lit 105 100 .< ratio then Ok [IncreaseContributions ratio]
          else if ratio .< lit 9 10 then Ok [OnTrack]
          else Ok []
    | None => Ok []
    end;
  let suggestions :=
    target_note
    ++ (if lit 2 1000 .< expense_ratio req then [HighExpenseRatio] else [])
    ++ (if lit 22 100 .< volatility req then [HighVolatility] else []) in
  Ok {| times := seqZ 0 (T + 1);
        r_percentiles := pct;
        r_summary := summ;
        r_insights := ins;
        r_suggestions := suggestions |}.

(** The [/simulate] endpoint: the request is validated, then simulated. *)
Definition simulate (req : SimRequest) (w : world) : result SimResponse :=
  if SimRequest_valid req then simulate_paths req w else Raise ValidationError.

End Compound.
End Compound.

(** *** The [/suggestions] endpoint *)


Module Suggest.
Section Suggest.
Context {num : Type} {arith : Arith num} {libm : Libm num}.





End Suggest.
End Suggest.

(** ** The drawdown calculator ([apps/drawdown/backend/main.py]) *)

Module Drawdown.
Section Drawdown.
Context {num : Type} {arith : Arith num} {libm : Libm num} {rng : Rng num}.

Record DrawdownRequest : Type := {
  years : Z;
  expected_return : num;
  volatility : num;
  expense_ratio : num;
  n_sims : Z;
  frequency : Z;
  start_date : option date;
  decimals : Z;
  seed : option Z;
}.

Record percentiles : Type := {
  p10 : list num;
  p25 : list num;
  p50 : list num;
  p75 : list num;
  p90 : list num;
}.

Record summary : Type := {
  median_max_drawdown : num;
  p10_max_drawdown : num;
  p90_max_drawdown : num;
  median_recovery_months : Z;
}.

Record DrawdownResponse : Type := {
  labels : list date;
  r_percentiles : percentiles;
  r_summary : summary;
}.

(** [(x - peak) / peak] along one series, [peak] its running maximum. *)
Definition drawdown_series (xs : list num) : list num :=
  zip_with div (zip_with sub xs (maximum_accumulate xs)) (maximum_accumulate xs).

(** Lines 51-65: the seeded draws, the price paths and their drawdowns. *)
Definition drawdown_paths (req : DrawdownRequest) (w : world)
  : result (list (list num) * list (list num)) :=
  st ← match seed req with
       | Some _ => np_random_seed (seed req) w
       | None => Ok (np_random w)
       end;
  let T := years req * frequency req in
  dt ← py_div one (of_Z (frequency req));
  let mu_net := expected_return req .- expense_ratio req in
  let sigma := volatility req in
  let drift := (mu_net .- lit 1 2 .* sigma .* sigma) .* dt in
  '(Z, _) ← randn (n_sims req) T st;
  let shock := map (map (fun z => sigma .* fsqrt dt .* z)) Z in
  let factors := map (map (fun s => fexp (drift .+ s))) shock in
  let prices := map (fun row => one :: np_cumprod row) factors in
  let dd := map drawdown_series prices in
  Ok (prices, dd).

(** Lines 84-87: the first index [j >= i] of the series with
    [med_path[j] >= prev_peak]. *)
Fixpoint first_recovered (prev_peak : num) (j : nat) (xs : list num)
  : option nat :=
  match xs with
  | [] => None
  | x :: xs' =>
      if prev_peak .<= x then Some j else first_recovered prev_peak (S j) xs'
  end.

(** Lines 79-88, on the median path. *)
Definition recovery_months (med_path : list num) : Z :=
  let med_peak := maximum_accumulate med_path in
  let med_dd := zip_with div (zip_with sub med_path med_peak) med_peak in
  let trough_idx := np_argmin med_dd in
  let prev_peak := nth trough_idx med_peak zero in
  let rec_idx :=
    default trough_idx
      (first_recovered prev_peak trough_idx (drop trough_idx med_path)) in
  Z.max 0 (Z.of_nat rec_idx - Z.of_nat trough_idx).

Definition drawdown (req : DrawdownRequest) (w : world)
  : result DrawdownResponse :=
  '(prices, dd) ← drawdown_paths req w;
  let T := years req * frequency req in
  let ncols := Z.to_nat (T + 1) in
  q10 ← percentile_axis0 dd ncols 10;
  q25 ← percentile_axis0 dd ncols 25;
  q50 ← percentile_axis0 dd ncols 50;
  q75 ← percentile_axis0 dd ncols 75;
  q90 ← percentile_axis0 dd ncols 90;
  let max_dd_per_path := map np_min dd in
  let median_max_dd := np_median max_dd_per_path in
  p10_max_dd ← percentile max_dd_per_path 10;
  p90_max_dd ← percentile max_dd_per_path 90;
  med_path ← percentile_axis0 prices ncols 50;
  let months := recovery_months med_path in
  let start_d := default (today w) (start_date req) in
  labels ← traverse (add_months start_d) (seqZ 0 (T + 1));
  let d := Z.max 0 (decimals req) in
  Ok {| labels := labels;
        r_percentiles :=
          {| p10 := round_list (sanitize_list q10) d;
             p25 := round_list (sanitize_list q25) d;
             p50 := round_list (sanitize_list q50) d;
             p75 := round_list (sanitize_list q75) d;
             p90 := round_list (sanitize_list q90) d |};
        r_summary :=
          {| median_max_drawdown := round_float (sanitize_float median_max_dd) d;
             p10_max_drawdown := round_float (sanitize_float p10_max_dd) d;
             p90_max_drawdown := round_float (sanitize_float p90_max_dd) d;
             median_recovery_months := months |} |}.

End Drawdown.
End Drawdown.

(** ** The FIRE calculator ([apps/fire/backend/main.py]) *)

(** [a[i] = v] on a one-dimensional array: a negative index counts from the
    end, an index out of bounds raises. *)
Definition np_setitem {A : Type} (a : list A) (i : Z) (v : A) : result (list A) :=
  let n := Z.of_nat (length a) in
  let j := if i <? 0 then i + n else i in
  if (j <? 0) || (n <=? j) then Raise IndexError
  else Ok (<[Z.to_nat j := v]> a).

(** [np.zeros(T)]. *)
Definition np_zeros {num : Type} {arith : Arith num} (T : Z) : result (list num) :=
  if T <? 0 then Raise ValueError else Ok (replicate (Z.to_nat T) zero).

(** Python slices [l[:k]] and [l[k:]]. *)
Definition py_take {A : Type} (k : Z) (l : list A) : list A :=
  take (Z.to_nat (if k <? 0 then Z.of_nat (length l) + k else k)) l.
Definition py_drop {A : Type} (k : Z) (l : list A) : list A :=
  drop (Z.to_nat (if k <? 0 then Z.of_nat (length l) + k else k)) l.

(** Python's [int(x)] of a float: truncation toward zero. *)
Definition py_int {num : Type} {arith : Arith num} (x : num) : result Z :=
  if isnan x then Raise ValueError
  else if isposinf x || isneginf x then Raise OverflowError
  else if x .< zero then Ok (- floorZ (zero .- x))
  else Ok (floorZ x).

Module Fire.
Section Fire.
Context {num : Type} {arith : Arith num} {libm : Libm num} {rng : Rng num}.

Record FireRequest : Type := {
  initial_balance : num;
  monthly_disposable : num;
  monthly_drawdown : num;
  years_to_retire : Z;
  years_in_retirement : Z;
  expected_return_accum : num;
  expected_return_ret : num;
  volatility : num;
  inflation : num;
  expense_ratio : num;
  n_sims : Z;
  frequency : Z;
  start_date : option date;
  decimals : Z;
  seed : option Z;
}.

Record percentiles : Type := {
  p10 : list num;
  p25 : list num;
  p50 : list num;
  p75 : list num;
  p90 : list num;
}.

Record summary : Type := {
  median_terminal : num;
  prob_nonzero_end : num;
  median_lasting_months : Z;
  retirement_start_index : Z;
}.

Record FireResponse : Type := {
  labels : list date;
  r_percentiles : percentiles;
  r_summary : summary;
}.

(** One of the two schedule loops (lines 73-78 and 81-85): for [m] over
    [ms], store the current amount at index [m], and multiply it by
    [1 + inflation] when [(m + 1 - origin) % 12 == 0]. *)
Fixpoint schedule_loop (infl : num) (origin : Z) (ms : list Z)
    (arr : list num) (amount : num) : result (list num) :=
  match ms with
  | [] => Ok arr
  | m :: ms' =>
      arr ← np_setitem arr m amount;
      let amount :=
        if (m + 1 - origin) mod 12 =? 0 then amount .* (one .+ infl)
        else amount in
      schedule_loop infl origin ms' arr amount
  end.

(** Lines 63-85: [contrib] and [draw]. *)
Definition fire_schedule (req : FireRequest) : result (list num * list num) :=
  let T_acc := years_to_retire req * frequency req in
  let T_ret := years_in_retirement req * frequency req in
  let T := T_acc + T_ret in
  contrib ← np_zeros T;
  draw ← np_zeros T;
  contrib ← schedule_loop (inflation req) 0 (seqZ 0 T_acc) contrib
              (monthly_disposable req);
  draw ← schedule_loop (inflation req) T_acc (seqZ T_acc (T - T_acc)) draw
           (monthly_drawdown req);
  Ok (contrib, draw).

(** One row of [wealth], after column 0 (lines 106-112). *)
Fixpoint wealth_path (w : num) (factors contrib draw : list num) : list num :=
  match factors, contrib, draw with
  | f :: factors', c :: contrib', d :: draw' =>
      let w_prev := w .* f in
      let flow := c .- d in
      let w' := np_maximum (w_prev .+ flow) zero in
      w' :: wealth_path w' factors' contrib' draw'
  | _, _, _ => []
  end.

(** Lines 60-112: the schedules, the seeded draws and the wealth matrix. *)
Definition fire_wealth (req : FireRequest) (w : world)
  : result (list (list num)) :=
  let st := match seed req with
            | Some _ => np_random_seed (seed req) w
            | None => Ok (np_random w)
            end in
  st ← st;
  let T_acc := years_to_retire req * frequency req in
  let T_ret := years_in_retirement req * frequency req in
  let T := T_acc + T_ret in
  dt ← py_div one (of_Z (frequency req));
  '(contrib, draw) ← fire_schedule req;
  let sigma := volatility req in
  let mu_acc := expected_return_accum req .- expense_ratio req in
  let mu_ret := expected_return_ret req .- expense_ratio req in
  '(Z, _) ← randn (n_sims req) T st;
  let shock := map (map (fun z => sigma .* fsqrt dt .* z)) Z in
  let drift_acc := (mu_acc .- lit 1 2 .* sigma .* sigma) .* dt in
  let drift_ret := (mu_ret .- lit 1 2 .* sigma .* sigma) .* dt in
  let factors :=
    map (fun row =>
           map (fun s => fexp (drift_acc .+ s)) (py_take T_acc row)
           ++ map (fun s => fexp (drift_ret .+ s)) (py_drop T_acc row))
        shock in
  Ok (map (fun row =>
             initial_balance req
             :: wealth_path (initial_balance req) row contrib draw)
          factors).

(** Lines 130-139: the longevity of one path. *)
Fixpoint first_zero (path : list num) (ts : list Z) : result (option Z) :=
  match ts with
  | [] => Ok None
  | t :: ts' =>
      v ← py_index path t;
      if v .<= zero then Ok (Some t) else first_zero path ts'
  end.

Definition time_to_zero (T_acc T_ret : Z) (path : list num) : result Z :=
  zero_idx ← first_zero path (seqZ (T_acc + 1) (T_ret));
  match zero_idx with
  | None => Ok T_ret
  | Some t => Ok (Z.max 0 (t - T_acc))
  end.

Definition fire (req : FireRequest) (w : world) : result FireResponse :=
  wealth ← fire_wealth req w;
  let T_acc := years_to_retire req * frequency req in
  let T_ret := years_in_retirement req * frequency req in
  let T := T_acc + T_ret in
  let ncols := Z.to_nat (T + 1) in
  q10 ← percentile_axis0 wealth ncols 10;
  q25 ← percentile_axis0 wealth ncols 25;
  q50 ← percentile_axis0 wealth ncols 50;
  q75 ← percentile_axis0 wealth ncols 75;
  q90 ← percentile_axis0 wealth ncols 90;
  let terminal := column wealth (Z.to_nat T) in
  let prob := mean_mask (map (fun x => zero .< x) terminal) in
  let median_term := np_median terminal in
  ttz ← traverse (time_to_zero T_acc T_ret) wealth;
  median_longevity_months ← py_int (np_median (map of_Z ttz));
  let start_d := default (today w) (start_date req) in
  labels ← traverse (add_months start_d) (seqZ 0 (T + 1));
  let d := Z.max 0 (decimals req) in
  Ok {| labels := labels;
        r_percentiles :=
          {| p10 := round_list (sanitize_list q10) d;
             p25 := round_list (sanitize_list q25) d;
             p50 := round_list (sanitize_list q50) d;
             p75 := round_list (sanitize_list q75) d;
             p90 := round_list (sanitize_list q90) d |};
        r_summary :=
          {| median_terminal := round_float (sanitize_float median_term) d;
             prob_nonzero_end := round_float (sanitize_float prob) d;
             median_lasting_months := median_longevity_months;
             retirement_start_index := T_acc |} |}.

End Fire.
End Fire.

(** ** A libm and a generator to run the model on

    Stand-ins over [Q] with which the definitions above evaluate on
    concrete requests.  They are not libm's functions nor NumPy's
    generator: every statement below is proved for all instances of
    [Libm] and [Rng], and these only instantiate them. *)

Module Sample.

Definition exp2 (x : Q) : Q := (1 + x + x * x / 2)%Q.
Definition mid1 (x : Q) : Q := ((x + 1) / 2)%Q.
Definition ipow (x y : Q) : Q := Qpower x (Qfloor y).

#[export] Instance libm : Libm Q := {|
  fexp := exp2;
  fsqrt := mid1;
  fpow := ipow;
|}.

Definition lcg (s : Z) : Z := (s * 1103515245 + 12345) mod 2 ^ 31.
Definition draw (s : Z) : Q * Z := (((s mod 7 - 3) # 2)%Q, lcg s).

#[export] Instance rng : Rng Q := {|
  rng_state := Z;
  mt_seed := fun s => s;
  legacy_gauss := draw;
|}.

Definition world0 : world (rng := rng) :=
  {| np_random := 7; os_entropy := 11; today := Date 2024 1 31 |}.

(** The same over doubles ([sqrt] is the IEEE one). *)
Definition fexp2 (x : float) : float :=
  (1 + x + x * x / 2)%float.
Definition fipow (x y : float) : float :=
  Z.iter (Binary64.floor y) (fun r => (r * x)%float) 1%float.

#[export] Instance float_libm : Libm float := {|
  fexp := fexp2;
  fsqrt := PrimFloat.sqrt;
  fpow := fipow;
|}.

Definition fdraw (s : Z) : float * Z :=
  ((Binary64.Z2f (s mod 7 - 3) / 2)%float, lcg s).

#[export] Instance float_rng : Rng float := {|
  rng_state := Z;
  mt_seed := fun s => s;
  legacy_gauss := fdraw;
|}.

Definition float_world : world (rng := float_rng) :=
  {| np_random := 7; os_entropy := 11; today := Date 2024 1 31 |}.

End Sample.

(** ** Requests the statements below are read at *)

(** [req] with its [extra_payments] replaced. *)
Definition set_extra_payments {num : Type}
    (req : Mortgage.MortgageRequest (num := num))
    (eps : option (list Mortgage.ExtraPayment)) : Mortgage.MortgageRequest :=
  {| Mortgage.principal := Mortgage.principal req;
     Mortgage.term_years := Mortgage.term_years req;
     Mortgage.fixed_years := Mortgage.fixed_years req;
     Mortgage.fixed_rate := Mortgage.fixed_rate req;
     Mortgage.variable_rate := Mortgage.variable_rate req;
     Mortgage.monthly_overpayment := Mortgage.monthly_overpayment req;
     Mortgage.extra_payments := eps;
     Mortgage.start_date := Mortgage.start_date req;
     Mortgage.recalc_on_rate_change := Mortgage.recalc_on_rate_change req;
     Mortgage.decimals := Mortgage.decimals req |}.


(** A quarterly FIRE plan: two years of saving 500 a quarter, one year of
    spending 2500 a quarter, inflation 2%. *)
Definition quarterly_request : Fire.FireRequest (num := float) :=
  {| Fire.initial_balance := Binary64.Z2f 0;
     Fire.monthly_disposable := Binary64.Z2f 500;
     Fire.monthly_drawdown := Binary64.Z2f 2500;
     Fire.years_to_retire := 2;
     Fire.years_in_retirement := 1;
     Fire.expected_return_accum := lit 7 100;
     Fire.expected_return_ret := lit 5 100;
     Fire.volatility := lit 18 100;
     Fire.inflation := lit 2 100;
     Fire.expense_ratio := lit 1 1000;
     Fire.n_sims := 2000;
     Fire.frequency := 4;
     Fire.start_date := None;
     Fire.decimals := 1;
     Fire.seed := None |}.

(** A median price path that falls and has not come back by the horizon. *)
Definition unrecovered_path : list float := [one; lit 1 2; lit 3 5].

(** A one-year loan of 1200 whose payment is set at 0% and never
    recalculated, while 12% a year accrues from the first month: a balance
    is left at the term. *)
Definition balloon_request : Mortgage.MortgageRequest (num := float) :=
  {| Mortgage.principal := Binary64.Z2f 1200;
     Mortgage.term_years := 1;
     Mortgage.fixed_years := 0;
     Mortgage.fixed_rate := Binary64.Z2f 0;
     Mortgage.variable_rate := lit 12 100;
     Mortgage.monthly_overpayment := Binary64.Z2f 0;
     Mortgage.extra_payments := None;
     Mortgage.start_date := Some (Date 2024 1 31);
     Mortgage.recalc_on_rate_change := false;
     Mortgage.decimals := 1 |}.

(** A lump five years after the start of that one-year loan. *)
Definition late_payment : Mortgage.ExtraPayment (num := float) :=
  {| Mortgage.ep_year := 5; Mortgage.ep_month := 0;
     Mortgage.ep_amount := Binary64.Z2f 1000 |}.

(** The end-to-end scenario of the specification, for [n] simulations:
    nothing to start with, 12000 a year in twelve instalments, no growth,
    no return, no volatility, no fee; the other fields at their defaults. *)
Definition terminal_request {num : Type} {arith : Arith num} (n : Z)
  : Compound.SimRequest :=
  {| Compound.initial := of_Z 0;
     Compound.annual_contribution := of_Z 12000;
     Compound.contribution_growth := of_Z 0;
     Compound.years := 1;
     Compound.n_sims := n;
     Compound.expected_return := of_Z 0;
     Compound.volatility := of_Z 0;
     Compound.expense_ratio := of_Z 0;
     Compound.inflation := lit 2 100;
     Compound.target := None;
     Compound.frequency := 12;
     Compound.seed := None |}.



(** ** Predicates on responses *)







(** ** Further requests and predicates *)

(** The month index [ep.year * 12 + ep.month + 1] of a lump sum. *)
Definition month_index {num : Type} (ep : Mortgage.ExtraPayment (num := num)) : Z :=
  Mortgage.ep_year ep * 12 + Mortgage.ep_month ep + 1.

(** The clamp of lines 103-104. *)
Definition clamp_noise {num : Type} {arith : Arith num} (new_bal : num) : num :=
  if (new_bal .< zero) && (lit (-1) (10 ^ 6) .< new_bal) then zero else new_bal.

(** Row [k] of a schedule is one turn of the loop of [_amortize] in month
    [m], the scheduled payment before it being [prev]. *)
Definition ledger_row {num : Type} {arith : Arith num} {libm : Libm num}
    (term_m fixed_m : Z) (i_fixed i_var monthly_overpay : num)
    (extra_map : gmap Z num) (recalc_on_change : bool)
    (out : Mortgage.schedule) (prev : num) (k : nat) (m : Z) : Prop :=
  exists bal pmt pay_total intr princ_actual new_bal : num,
    Mortgage.balances out !! k = Some bal
    /\ Mortgage.balances out !! S k = Some new_bal
    /\ Mortgage.sched out !! k = Some pmt
    /\ Mortgage.totalp out !! k = Some pay_total
    /\ Mortgage.interest out !! k = Some intr
    /\ Mortgage.principal_paid out !! k = Some princ_actual
    /\ let current_rate := if m <=? fixed_m then i_fixed else i_var in
       (if recalc_on_change && (m =? fixed_m + 1)
        then Mortgage._pmt bal current_rate (term_m - (m - 1)) = Ok pmt
        else pmt = prev)
       /\ intr = bal .* current_rate
       /\ pay_total = pmt .+ monthly_overpay .+ default zero (extra_map !! m)
       /\ princ_actual = pay_total .- intr
       /\ new_bal = clamp_noise (bal .+ intr .- pay_total).

(** The five lists of a schedule have the lengths [S n], [n], [n], [n],
    [n]. *)
Definition well_shaped {num : Type} (acc : Mortgage.schedule (num := num)) (n : nat) : Prop :=
  length (Mortgage.balances acc) = S n /\ length (Mortgage.sched acc) = n
  /\ length (Mortgage.totalp acc) = n /\ length (Mortgage.interest acc) = n
  /\ length (Mortgage.principal_paid acc) = n.

(** [out] extends [acc] list by list. *)
Definition extends {num : Type} (acc out : Mortgage.schedule (num := num)) : Prop :=
  Mortgage.balances acc `prefix_of` Mortgage.balances out
  /\ Mortgage.sched acc `prefix_of` Mortgage.sched out
  /\ Mortgage.totalp acc `prefix_of` Mortgage.totalp out
  /\ Mortgage.interest acc `prefix_of` Mortgage.interest out
  /\ Mortgage.principal_paid acc `prefix_of` Mortgage.principal_paid out.

(** A one-year loan of 1200 at 0%, repaid 100 a month on schedule, with a
    further 100 a month on top: cleared after six months. *)
Definition overpaid_request : Mortgage.MortgageRequest (num := float) :=
  {| Mortgage.principal := Binary64.Z2f 1200;
     Mortgage.term_years := 1;
     Mortgage.fixed_years := 1;
     Mortgage.fixed_rate := Binary64.Z2f 0;
     Mortgage.variable_rate := Binary64.Z2f 0;
     Mortgage.monthly_overpayment := Binary64.Z2f 100;
     Mortgage.extra_payments := None;
     Mortgage.start_date := Some (Date 2024 1 31);
     Mortgage.recalc_on_rate_change := true;
     Mortgage.decimals := 1 |}.


(** [amount] after [k] yearly steps of [amount *= (1.0 + inflation)]. *)
Definition stepped {num : Type} {arith : Arith num} (infl : num) (k : Z)
    (amount : num) : num :=
  Nat.iter (Z.to_nat k) (fun a => a .* (one .+ infl)) amount.

(** Two years of contributions of 1200 a year growing by a half, four
    periods a year. *)
Definition growing_request : Compound.SimRequest (num := float) :=
  {| Compound.initial := Binary64.Z2f 0;
     Compound.annual_contribution := Binary64.Z2f 1200;
     Compound.contribution_growth := lit 1 2;
     Compound.years := 2;
     Compound.n_sims := 50;
     Compound.expected_return := lit 7 100;
     Compound.volatility := lit 18 100;
     Compound.expense_ratio := Binary64.Z2f 0;
     Compound.inflation := lit 2 100;
     Compound.target := None;
     Compound.frequency := 4;
     Compound.seed := Some 1 |}.

(** A FIRE plan that saves 100 a quarter for a year from 1000 and then
    spends 600 a quarter for a year. *)
Definition spending_plan : Fire.FireRequest (num := float) :=
  {| Fire.initial_balance := Binary64.Z2f 1000;
     Fire.monthly_disposable := Binary64.Z2f 100;
     Fire.monthly_drawdown := Binary64.Z2f 600;
     Fire.years_to_retire := 1;
     Fire.years_in_retirement := 1;
     Fire.expected_return_accum := lit 7 100;
     Fire.expected_return_ret := lit 5 100;
     Fire.volatility := lit 18 100;
     Fire.inflation := lit 2 100;
     Fire.expense_ratio := lit 1 1000;
     Fire.n_sims := 3;
     Fire.frequency := 4;
     Fire.start_date := Some (Date 2024 1 31);
     Fire.decimals := 1;
     Fire.seed := Some 5 |}.


(** One year of drawdowns in two periods, three simulations. *)
Definition short_drawdown : Drawdown.DrawdownRequest (num := Q) :=
  {| Drawdown.years := 1;
     Drawdown.expected_return := (5 # 100)%Q;
     Drawdown.volatility := (1 # 10)%Q;
     Drawdown.expense_ratio := 0%Q;
     Drawdown.n_sims := 3;
     Drawdown.frequency := 2;
     Drawdown.start_date := Some (Date 2024 1 31);
     Drawdown.decimals := 1;
     Drawdown.seed := Some 4 |}.





(** * Properties *)

(** ** The error monad *)

Lemma bind_Ok_inv {A B : Type} (m : result A) (f : A -> result B) (b : B) :
  m ≫= f = Ok b -> exists a, m = Ok a /\ f a = Ok b.
Proof.
  destruct m as [a|e]; simpl; intros Hb.
  - exists a. split; [reflexivity | exact Hb].
  - discriminate Hb.
Qed.

Lemma traverse_length {A B : Type} (f : A -> result B) (l : list A) (bs : list B) :
  traverse f l = Ok bs -> length bs = length l.
Proof.
  revert bs. induction l as [|a l IH]; simpl; intros bs Hbs.
  - injection Hbs as <-. reflexivity.
  - apply bind_Ok_inv in Hbs as (b & Hb & Hbs).
    apply bind_Ok_inv in Hbs as (bs' & Hbs' & Hbs).
    injection Hbs as <-. simpl. f_equal. apply IH. exact Hbs'.
Qed.

Lemma traverse_lookup {A B : Type} (f : A -> result B) (l : list A) (bs : list B)
    (i : nat) (a : A) :
  traverse f l = Ok bs -> l !! i = Some a ->
  exists b, bs !! i = Some b /\ f a = Ok b.
Proof.
  revert bs i. induction l as [|a' l IH]; simpl; intros bs i Hbs Hi.
  - discriminate Hi.
  - apply bind_Ok_inv in Hbs as (b & Hb & Hbs).
    apply bind_Ok_inv in Hbs as (bs' & Hbs' & Hbs).
    injection Hbs as <-. destruct i as [|i]; simpl in *.
    + injection Hi as ->. exists b. split; [reflexivity | exact Hb].
    + apply (IH bs' i Hbs' Hi).
Qed.

Lemma traverse_Ok_total {A B : Type} (f : A -> result B) (l : list A) :
  (forall a, a ∈ l -> exists b, f a = Ok b) ->
  exists bs, traverse f l = Ok bs.
Proof.
  induction l as [|a l IH]; simpl; intros Hf.
  - exists []. reflexivity.
  - destruct (Hf a) as (b & Hb); [left|].
    destruct IH as (bs & Hbs).
    { intros a' Ha'. apply Hf. right. exact Ha'. }
    rewrite Hb, Hbs. simpl. exists (b :: bs). reflexivity.
Qed.

(** One step of reading a successful [x <- m; k]. *)
Ltac bind_inv H :=
  let x := fresh "x" in
  let Hx := fresh "Hx" in
  apply bind_Ok_inv in H as (x & Hx & H).

Lemma traverse_lookup_inv {A B : Type} (f : A -> result B) (l : list A)
    (bs : list B) (i : nat) (b : B) :
  traverse f l = Ok bs -> bs !! i = Some b ->
  exists a, l !! i = Some a /\ f a = Ok b.
Proof.
  intros Hbs Hb.
  assert (Hi : (i < length l)%nat).
  { rewrite <- (traverse_length _ _ _ Hbs). apply lookup_lt_Some in Hb. exact Hb. }
  apply lookup_lt_is_Some in Hi as (a & Ha).
  destruct (traverse_lookup _ _ _ _ _ Hbs Ha) as (b' & Hb' & Hf).
  rewrite Hb in Hb'. injection Hb' as <-.
  exists a. split; [exact Ha | exact Hf].
Qed.

(** ** Amortization *)

Section MortgageFacts.
Context {num : Type} {arith : Arith num} {libm : Libm num}.
Import Mortgage.

Lemma add_extra_out_of_range (term_m : Z) (mp : gmap Z num) (ep : ExtraPayment) :
  ~ (1 <= ep_year ep * 12 + ep_month ep + 1 <= term_m) ->
  add_extra term_m mp ep = mp.
Proof.
  intros Hout. unfold add_extra.
  destruct (1 <=? ep_year ep * 12 + ep_month ep + 1) eqn:Hlo;
    destruct (ep_year ep * 12 + ep_month ep + 1 <=? term_m) eqn:Hhi;
    simpl; try reflexivity.
  exfalso. apply Hout. lia.
Qed.

Lemma build_extra_map_skip (term_m : Z) (ep : ExtraPayment)
    (before after : list ExtraPayment) :
  ~ (1 <= ep_year ep * 12 + ep_month ep + 1 <= term_m) ->
  build_extra_map term_m (Some (before ++ ep :: after))
  = build_extra_map term_m (Some (before ++ after)).
Proof.
  intros Hout. unfold build_extra_map.
  rewrite !fold_left_app. simpl.
  rewrite (add_extra_out_of_range _ _ _ Hout). reflexivity.
Qed.

(** C9.  An extra payment whose month index [year*12 + month + 1] is
    outside [1, term_months] changes nothing: the response (every series,
    every summary field, or the exception raised) is the one obtained
    without it, wherever in the list it is added, and also when it is the
    only entry of a list that was absent. *)
Theorem out_of_range_extra_payment_is_ignored
    (today : date) (req : MortgageRequest) (ep : ExtraPayment)
    (before after : list ExtraPayment) :
  ~ (1 <= ep_year ep * 12 + ep_month ep + 1 <= term_years req * 12) ->
  mortgage today (set_extra_payments req (Some (before ++ ep :: after)))
  = mortgage today (set_extra_payments req (Some (before ++ after)))
  /\ mortgage today (set_extra_payments req (Some [ep]))
     = mortgage today (set_extra_payments req None).
Proof.
  intros Hout.
  pose proof (build_extra_map_skip _ ep before after Hout) as Hlist.
  pose proof (build_extra_map_skip _ ep [] [] Hout) as Hone.
  split; unfold mortgage, set_extra_payments;
    cbn [principal term_years fixed_years fixed_rate variable_rate
         monthly_overpayment extra_payments start_date
         recalc_on_rate_change decimals].
  - rewrite Hlist. reflexivity.
  - change ([ep]) with ([] ++ ep :: []). rewrite Hone. reflexivity.
Qed.

Lemma nth_pred_length_last (l : list num) (d : num) :
  l <> [] -> nth (length l - 1) l d = List.last l d.
Proof.
  induction l as [|x l IH]; intros Hne; [congruence|].
  destruct l as [|y l]; [reflexivity|].
  change (List.last (x :: y :: l) d) with (List.last (y :: l) d).
  rewrite <- IH by discriminate. simpl. rewrite Nat.sub_0_r. reflexivity.
Qed.

Lemma py_index_last (l : list num) :
  l <> [] -> py_index l (-1) = Ok (List.last l zero).
Proof.
  intros Hne. unfold py_index.
  assert (0 < length l)%nat by (destruct l; [congruence | simpl; lia]).
  replace (-1 <? 0) with true by reflexivity.
  replace ((-1 + Z.of_nat (length l) <? 0)
           || (Z.of_nat (length l) <=? -1 + Z.of_nat (length l))) with false
    by (symmetry; apply orb_false_intro; [apply Z.ltb_ge | apply Z.leb_gt]; lia).
  replace (Z.to_nat (-1 + Z.of_nat (length l))) with (length l - 1)%nat by lia.
  rewrite nth_pred_length_last by exact Hne. reflexivity.
Qed.

Lemma last_app_replicate (l : list num) (k : nat) (d : num) :
  l <> [] -> List.last (l ++ replicate k (List.last l d)) d = List.last l d.
Proof.
  intros Hne. induction k as [|k IH]; simpl.
  - rewrite app_nil_r. reflexivity.
  - replace (l ++ List.last l d :: replicate k (List.last l d))
      with ((l ++ replicate k (List.last l d)) ++ [List.last l d]).
    + apply last_last.
    + rewrite <- app_assoc. f_equal.
      clear. induction k as [|k IH]; simpl; [reflexivity | f_equal; exact IH].
Qed.

(** [_pad] to at least the list's own length keeps its last element, and
    pads nothing when the length is already [L]. *)
Lemma pad_last (arr arr' : list num) (L : Z) :
  arr <> [] -> Z.of_nat (length arr) <= L -> _pad arr L = Ok arr' ->
  arr' <> [] /\ List.last arr' zero = List.last arr zero
  /\ (L = Z.of_nat (length arr) -> arr' = arr).
Proof.
  intros Hne HL Hpad. unfold _pad in Hpad.
  destruct (L <=? Z.of_nat (length arr)) eqn:Hle.
  - apply Z.leb_le in Hle. assert (L = Z.of_nat (length arr)) as -> by lia.
    replace (Z.of_nat (length arr) <? 0) with false in Hpad
      by (symmetry; apply Z.ltb_ge; lia).
    rewrite Nat2Z.id, firstn_all in Hpad. injection Hpad as <-.
    repeat split; trivial.
  - apply Z.leb_gt in Hle.
    rewrite (py_index_last _ Hne) in Hpad. simpl in Hpad. injection Hpad as <-.
    split; [destruct arr; [congruence | discriminate]|].
    split; [apply last_app_replicate; exact Hne | lia].
Qed.

Lemma first_paid_unpaid (bals : list num) (i : Z) :
  (forall v, v ∈ bals -> (v .<= zero) = false) -> first_paid bals i = None.
Proof.
  revert i. induction bals as [|v bals IH]; intros i Hun; simpl; [reflexivity|].
  rewrite (Hun v) by left. apply IH. intros v' Hv'. apply Hun. right. exact Hv'.
Qed.

(** The balances [amortize_loop] appends: at most one per month, and one
    for every month when none of them is [<= 0] (no [break]). *)
Lemma amortize_loop_balances
    (term_m fixed_m : Z) (i_fixed i_var overpay : num) (extra_map : gmap Z num)
    (recalc : bool) (ms : list Z) :
  forall (bal pmt : num) (acc out : schedule),
    amortize_loop term_m fixed_m i_fixed i_var overpay extra_map recalc
      ms bal pmt acc = Ok out ->
    exists extra : list num,
      balances out = balances acc ++ extra
      /\ (length extra <= length ms)%nat
      /\ ((forall v, v ∈ extra -> (v .<= zero) = false) ->
          length extra = length ms).
Proof.
  induction ms as [|m ms IH]; intros bal pmt acc out Hout.
  - simpl in Hout. injection Hout as <-. exists [].
    rewrite app_nil_r. repeat split; trivial.
  - cbn [amortize_loop] in Hout.
    apply bind_Ok_inv in Hout as (pmt' & _ & Hout). cbv zeta in Hout.
    match type of Hout with
    | (if ?b .<= zero then _ else _) = _ =>
        remember b as new_bal eqn:Hnew; clear Hnew;
        destruct (new_bal .<= zero) eqn:Hpaid
    end.
    + injection Hout as <-. cbn [balances]. exists [new_bal].
      split; [reflexivity|]. split; [simpl; lia|].
      intros Hun. rewrite (Hun new_bal) in Hpaid by left. discriminate Hpaid.
    + apply IH in Hout as (extra & Hb & Hlen & Hfull). cbn [balances] in Hb.
      exists (new_bal :: extra). split.
      * rewrite Hb, <- app_assoc. reflexivity.
      * split; [simpl; lia|]. intros Hun. simpl. f_equal. apply Hfull.
        intros v Hv. apply Hun. right. exact Hv.
Qed.

Lemma amortize_balances (P : num) (term_m fixed_m : Z)
    (fixed_r var_r overpay : num) (extra_map : gmap Z num) (recalc : bool)
    (out : schedule) :
  _amortize P term_m fixed_m fixed_r var_r overpay extra_map recalc = Ok out ->
  exists extra : list num,
    balances out = P :: extra
    /\ (length extra <= Z.to_nat term_m)%nat
    /\ ((forall v, v ∈ extra -> (v .<= zero) = false) ->
        length extra = Z.to_nat term_m).
Proof.
  unfold _amortize. intros Hout. cbv zeta in Hout.
  apply bind_Ok_inv in Hout as (pmt & _ & Hout).
  apply amortize_loop_balances in Hout as (extra & Hb & Hlen & Hfull).
  rewrite length_seqZ in Hlen, Hfull. exists extra. auto.
Qed.

(** C10.  When [mortgage] answers, [is_balloon] is the test "final
    unrounded balance > 0"; and for a loan none of whose balances is
    [<= 0], [payoff_months] is the last index of the balance series, which
    is the term in months, and [payoff_date] is the label of that index:
    the summary reads as if the loan were paid off at the term. *)
Theorem balloon_loan_payoff_summary
    (today : date) (req : MortgageRequest) (resp : MortgageResponse) :
  mortgage today req = Ok resp ->
  exists main : schedule,
    _amortize (principal req) (term_years req * 12) (fixed_years req * 12)
      (fixed_rate req) (variable_rate req) (monthly_overpayment req)
      (build_extra_map (term_years req * 12) (extra_payments req))
      (recalc_on_rate_change req) = Ok main
    /\ is_balloon (r_summary resp) = (zero .< List.last (balances main) zero)
    /\ ((forall v, v ∈ balances main -> (v .<= zero) = false) ->
        payoff_months (r_summary resp) = Z.of_nat (length (r_balance resp)) - 1
        /\ payoff_months (r_summary resp) = Z.max 0 (term_years req * 12)
        /\ r_labels resp !! Z.to_nat (payoff_months (r_summary resp))
           = Some (payoff_date (r_summary resp))).
Proof.
  unfold mortgage. cbv zeta. intros Hresp.
  apply bind_Ok_inv in Hresp as (main & Hmain & Hresp).
  apply bind_Ok_inv in Hresp as (base & Hbase & Hresp).
  apply bind_Ok_inv in Hresp as (labels & Hlabels & Hresp).
  apply bind_Ok_inv in Hresp as (balances' & Hpad & Hresp).
  apply bind_Ok_inv in Hresp as (baseline_balance & _ & Hresp).
  apply bind_Ok_inv in Hresp as (sched' & _ & Hresp).
  apply bind_Ok_inv in Hresp as (totalp' & _ & Hresp).
  apply bind_Ok_inv in Hresp as (intr & _ & Hresp).
  apply bind_Ok_inv in Hresp as (princ & _ & Hresp).
  apply bind_Ok_inv in Hresp as (ending & Hending & Hresp).
  apply bind_Ok_inv in Hresp as (payoff_d & Hpayoff & Hresp).
  apply bind_Ok_inv in Hresp as (base_d & _ & Hresp).
  injection Hresp as <-. cbn [r_summary r_balance r_labels is_balloon
                               payoff_months payoff_date].
  exists main. split; [exact Hmain|].
  destruct (amortize_balances _ _ _ _ _ _ _ _ _ Hmain) as (extra & Hb & Hlen & Hfull).
  destruct (amortize_balances _ _ _ _ _ _ _ _ _ Hbase) as (bextra & Hbb & Hblen & _).
  assert (Hne : balances main <> []) by (rewrite Hb; discriminate).
  set (L := Z.max (Z.of_nat (length (balances main)))
                  (Z.of_nat (length (balances base)))) in *.
  destruct (pad_last _ _ L Hne ltac:(lia) Hpad) as (Hne' & Hlast & Hsame).
  rewrite (py_index_last _ Hne') in Hending. injection Hending as <-.
  split; [rewrite Hlast; reflexivity|].
  intros Hun.
  assert (Hlen' : length extra = Z.to_nat (term_years req * 12)).
  { apply Hfull. intros v Hv. apply Hun. rewrite Hb. right. exact Hv. }
  assert (HL : L = Z.of_nat (length (balances main))).
  { unfold L. rewrite Hb, Hbb. simpl length. lia. }
  rewrite (Hsame HL) in *. unfold round_list. rewrite length_map.
  unfold _payoff_month. rewrite (first_paid_unpaid _ _ Hun). cbn [default].
  split; [reflexivity|].
  split; [rewrite Hb; simpl length; lia|].
  unfold _payoff_month in Hpayoff.
  rewrite (first_paid_unpaid _ _ Hun) in Hpayoff. cbn [default] in Hpayoff.
  assert (Hi : seqZ 0 L !! Z.to_nat (Z.of_nat (length (balances main)) - 1)
               = Some (Z.of_nat (length (balances main)) - 1)).
  { apply lookup_seqZ. rewrite Hb in *. simpl length in *. lia. }
  destruct (traverse_lookup _ _ _ _ _ Hlabels Hi) as (b & Hb' & Hadd).
  rewrite Hpayoff in Hadd. injection Hadd as <-. exact Hb'.
Qed.

End MortgageFacts.

(** ** Binary64: the amortization payment, and sanitization *)

Section Binary64Facts.
Context (L : Libm float) (R : Rng float).
Import Mortgage.

(** C7.  [_pmt] on doubles: the balance when [n <= 0]; [balance / n] when
    [|i| < 1e-12]; otherwise [balance * i / (1 - (1 + i) ** (-n))] as
    Python computes it.  A loan of 100000 over one period at rate 0 has the
    single payment 100000 and the ending balance 0, whatever the
    fixed-phase length and the recalculation flag. *)
Theorem pmt_cases_and_single_period_loan (balance i : float) (n : Z) :
  (n <= 0 -> _pmt balance i n = Ok balance)
  /\ (0 < n -> (fabs i .< lit 1 (10 ^ 12)) = true ->
      _pmt balance i n = Ok (balance ./ of_Z n))
  /\ (0 < n -> (fabs i .< lit 1 (10 ^ 12)) = false ->
      _pmt balance i n =
        (p ← py_pow (one .+ i) (of_Z (- n)); py_div (balance .* i) (one .- p)))
  /\ (forall (fixed_m : Z) (recalc : bool),
        _amortize (num := float) (of_Z 100000) 1 fixed_m zero zero zero ∅ recalc
        = Ok {| balances := [of_Z 100000; zero];
                sched := [of_Z 100000];
                totalp := [of_Z 100000];
                interest := [zero];
                principal_paid := [of_Z 100000] |}).
Proof.
  repeat split.
  - intros Hn. unfold _pmt. apply Z.leb_le in Hn. rewrite Hn. reflexivity.
  - intros Hn Hi. unfold _pmt. apply Z.leb_gt in Hn. rewrite Hn, Hi. reflexivity.
  - intros Hn Hi. unfold _pmt. apply Z.leb_gt in Hn. rewrite Hn, Hi. reflexivity.
  - intros fixed_m recalc. unfold _amortize. cbv zeta.
    change (seqZ 1 1) with [1]. cbn [amortize_loop].
    destruct (1 <=? fixed_m), recalc, (1 =? fixed_m + 1);
      vm_compute; reflexivity.
Qed.

(** *** Sanitization *)









End Binary64Facts.

(** ** The schedules *)

(** C4, at [quarterly_request].  With four periods a year the FIRE
    contribution is still 500 in the second year (periods 4 to 7), where a
    step at each year boundary gives 500 * 1.02: the loops test
    [(m + 1) % 12], not [(m + 1) % frequency]. *)
Lemma fire_schedule_keeps_stepping_every_12_periods :
  Fire.fire_schedule quarterly_request
  = Ok (replicate 8 (of_Z 500) ++ replicate 4 zero,
        replicate 8 zero ++ replicate 4 (of_Z 2500))
  /\ (of_Z 500 .* (one .+ lit 2 100) .== (of_Z 500 : float)) = false.
Proof.
  split.
  - vm_compute. reflexivity.
  - vm_compute. reflexivity.
Qed.

(** ** Recovery on the median path *)

Section RecoveryScan.
Context {num : Type} {arith : Arith num}.
Import Drawdown.

(** [first_recovered] finds the first position of the scanned slice whose
    value is at least [prev_peak], if there is one. *)
Lemma first_recovered_spec (prev_peak : num) (xs : list num) (j0 : nat) :
  match first_recovered prev_peak j0 xs with
  | Some j =>
      (j0 <= j < j0 + length xs)%nat
      /\ (prev_peak .<= nth (j - j0) xs zero) = true
      /\ (forall k, (j0 <= k < j)%nat ->
                    (prev_peak .<= nth (k - j0) xs zero) = false)
  | None =>
      forall k, (j0 <= k < j0 + length xs)%nat ->
                (prev_peak .<= nth (k - j0) xs zero) = false
  end.
Proof.
  revert j0. induction xs as [|x xs IH]; intros j0; simpl.
  - intros k Hk. lia.
  - destruct (prev_peak .<= x) eqn:Hx.
    + split; [lia|]. split.
      * rewrite Nat.sub_diag. exact Hx.
      * intros k Hk. lia.
    + specialize (IH (S j0)).
      destruct (first_recovered prev_peak (S j0) xs) as [j|].
      * destruct IH as (Hj & Hle & Hbefore). split; [lia|]. split.
        -- replace (j - j0)%nat with (S (j - S j0)) by lia. exact Hle.
        -- intros k Hk. destruct (decide (k = j0)) as [->|Hne].
           ++ rewrite Nat.sub_diag. exact Hx.
           ++ replace (k - j0)%nat with (S (k - S j0)) by lia.
              apply Hbefore. lia.
      * intros k Hk. destruct (decide (k = j0)) as [->|Hne].
        -- rewrite Nat.sub_diag. exact Hx.
        -- replace (k - j0)%nat with (S (k - S j0)) by lia.
           apply IH. lia.
Qed.

Lemma length_accumulate_from (peak : num) (xs : list num) :
  length (accumulate_from peak xs) = length xs.
Proof.
  revert peak. induction xs as [|x xs IH]; intros peak; simpl;
    [reflexivity | f_equal; apply IH].
Qed.

Lemma length_maximum_accumulate (xs : list num) :
  length (maximum_accumulate xs) = length xs.
Proof.
  destruct xs as [|x xs]; simpl; [reflexivity|].
  f_equal. apply length_accumulate_from.
Qed.

Lemma length_drawdown_series (xs : list num) :
  length (drawdown_series xs) = length xs.
Proof.
  unfold drawdown_series.
  rewrite !length_zip_with, length_maximum_accumulate. lia.
Qed.

Lemma length_insert_sorted (x : num) (l : list num) :
  length (insert_sorted x l) = S (length l).
Proof.
  induction l as [|y l IH]; simpl; [reflexivity|].
  destruct (sort_le x y); simpl; [reflexivity | f_equal; exact IH].
Qed.

Lemma length_np_sort (l : list num) : length (np_sort l) = length l.
Proof.
  induction l as [|x l IH]; simpl; [reflexivity|].
  rewrite length_insert_sorted. f_equal. exact IH.
Qed.

Lemma py_index_in_range (l : list num) (i : Z) :
  (0 <= i < Z.of_nat (length l))%Z -> py_index l i = Ok (nth (Z.to_nat i) l zero).
Proof.
  intros Hi. unfold py_index.
  replace (i <? 0) with false by (symmetry; apply Z.ltb_ge; lia).
  replace ((i <? 0) || (Z.of_nat (length l) <=? i)) with false; [reflexivity|].
  symmetry. apply orb_false_intro; [apply Z.ltb_ge | apply Z.leb_gt]; lia.
Qed.

Lemma py_index_Ok_nonempty (l : list num) (i : Z) (v : num) :
  py_index l i = Ok v -> l <> [].
Proof.
  intros Hv ->. unfold py_index in Hv. cbv zeta in Hv.
  cbn [length Z.of_nat] in Hv.
  match type of Hv with
  | (if ?c then _ else _) = _ => destruct c eqn:Hout; [discriminate Hv|]
  end.
  apply orb_false_elim in Hout as [Hlo Hhi].
  apply Z.ltb_ge in Hlo. apply Z.leb_gt in Hhi.
  destruct (i <? 0); lia.
Qed.

End RecoveryScan.

(** C5, where the claim departs from the code: on [unrecovered_path] the
    trough is at index 1, no later value reaches the peak 1.0 recorded
    there, the last index is 2, and the reported duration is 0, not 1. *)
Lemma unrecovered_path_reports_zero :
  np_argmin (Drawdown.drawdown_series unrecovered_path) = 1%nat
  /\ Drawdown.first_recovered (nth 1 (maximum_accumulate unrecovered_path) zero)
       1 (drop 1 unrecovered_path) = None
  /\ Z.of_nat (length unrecovered_path - 1) - 1 = 1
  /\ Drawdown.recovery_months unrecovered_path = 0.
Proof.
  repeat split; vm_compute; reflexivity.
Qed.

(** ** Exact arithmetic *)

(** The operations of [Q_arith], unfolded to those of [Q]. *)
Ltac q_ops :=
  unfold one, zero, lit in *;
  cbn [add sub mul div ltb leb eqb of_Z fabs isnan isposinf isneginf
       floorZ rint finfo_max Q_arith] in *;
  change (inject_Z 0) with 0%Q in *;
  change (inject_Z 1) with 1%Q in *.

Section ExactFacts.
Local Open Scope Q_scope.

Lemma Q_leb_true (x y : Q) : (x .<= y)%num = true <-> x <= y.
Proof. apply Qle_bool_iff. Qed.

Lemma Q_leb_false (x y : Q) : (x .<= y)%num = false <-> y < x.
Proof.
  change ((x .<= y)%num) with (Qle_bool x y). split.
  - intros Hf. apply Qnot_le_lt. intros Hle.
    apply Qle_bool_iff in Hle. congruence.
  - intros Hlt. destruct (Qle_bool x y) eqn:Hb; [|reflexivity].
    apply Qle_bool_iff in Hb. exfalso. apply (Qlt_not_le _ _ Hlt Hb).
Qed.

Lemma Q_ltb_true (x y : Q) : (x .< y)%num = true <-> x < y.
Proof.
  change ((x .< y)%num) with (negb (Qle_bool y x)).
  rewrite negb_true_iff. apply Q_leb_false.
Qed.

Lemma Q_ltb_false (x y : Q) : (x .< y)%num = false <-> y <= x.
Proof.
  change ((x .< y)%num) with (negb (Qle_bool y x)).
  rewrite negb_false_iff. apply Qle_bool_iff.
Qed.

(** [np_argmin] over [Q]: scanning [xs] after a prefix [pre] whose first
    minimum is at [ibest] ends on the first minimum of [pre ++ xs]. *)
Lemma argmin_from_first_minimum (xs pre : list Q) (best : Q) (ibest : nat) :
  (ibest < length pre)%nat ->
  nth ibest pre 0 = best ->
  (forall k, (k < length pre)%nat -> best <= nth k pre 0) ->
  (forall k, (k < ibest)%nat -> best < nth k pre 0) ->
  let r := argmin_from best ibest (length pre) xs in
  (r < length (pre ++ xs))%nat
  /\ (forall k, (k < length (pre ++ xs))%nat ->
                nth r (pre ++ xs) 0 <= nth k (pre ++ xs) 0)
  /\ (forall k, (k < r)%nat -> nth r (pre ++ xs) 0 < nth k (pre ++ xs) 0).
Proof.
  revert pre best ibest.
  induction xs as [|x xs IH]; intros pre best ibest Hi Hbest Hmin Hfirst.
  - simpl. rewrite app_nil_r. rewrite Hbest. auto.
  - cbn [argmin_from].
    replace (pre ++ x :: xs) with ((pre ++ [x]) ++ xs)
      by (rewrite <- app_assoc; reflexivity).
    replace (S (length pre)) with (length (pre ++ [x]))
      by (rewrite length_app; simpl; lia).
    change (negb (isnan best) && (isnan x || (x .< best)%num))
      with ((x .< best)%num).
    destruct ((x .< best)%num) eqn:Hx.
    + apply Q_ltb_true in Hx. apply IH.
      * rewrite length_app. simpl. lia.
      * rewrite app_nth2 by lia. rewrite Nat.sub_diag. reflexivity.
      * intros k Hk. rewrite length_app in Hk. simpl in Hk.
        destruct (decide (k < length pre)%nat) as [Hlt|Hge].
        -- rewrite app_nth1 by exact Hlt.
           apply Qlt_le_weak, (Qlt_le_trans _ best); auto.
        -- replace k with (length pre) by lia.
           rewrite app_nth2 by lia. rewrite Nat.sub_diag. apply Qle_refl.
      * intros k Hk. rewrite app_nth1 by exact Hk.
        apply (Qlt_le_trans _ best); [exact Hx | apply Hmin; exact Hk].
    + apply Q_ltb_false in Hx. apply IH.
      * rewrite length_app. simpl. lia.
      * rewrite app_nth1 by exact Hi. exact Hbest.
      * intros k Hk. rewrite length_app in Hk. simpl in Hk.
        destruct (decide (k < length pre)%nat) as [Hlt|Hge].
        -- rewrite app_nth1 by exact Hlt. auto.
        -- replace k with (length pre) by lia.
           rewrite app_nth2 by lia. rewrite Nat.sub_diag. exact Hx.
      * intros k Hk. rewrite app_nth1 by lia. auto.
Qed.

Lemma np_argmin_first_minimum (xs : list Q) :
  xs <> [] ->
  (np_argmin xs < length xs)%nat
  /\ (forall k, (k < length xs)%nat -> nth (np_argmin xs) xs 0 <= nth k xs 0)
  /\ (forall k, (k < np_argmin xs)%nat -> nth (np_argmin xs) xs 0 < nth k xs 0).
Proof.
  destruct xs as [|x xs]; [congruence|]. intros _.
  apply (argmin_from_first_minimum xs [x] x 0%nat).
  - simpl. lia.
  - reflexivity.
  - intros k Hk. simpl in Hk. replace k with 0%nat by lia. apply Qle_refl.
  - intros k Hk. lia.
Qed.

(** C5, as the code has it.  On the median path, with [trough] the first
    index at which the drawdown series is least: if [j] is the first index
    at or after the trough whose value is at least the running peak
    recorded at the trough, the duration is [j - trough]; and if there is
    no such index within the horizon, the duration is 0. *)
Theorem recovery_months_from_trough (med_path : list Q) :
  let med_peak := maximum_accumulate med_path in
  let med_dd := Drawdown.drawdown_series med_path in
  let trough := np_argmin med_dd in
  let prev_peak := nth trough med_peak 0 in
  (med_path <> [] ->
   (trough < length med_path)%nat
   /\ (forall k, (k < length med_path)%nat ->
                 nth trough med_dd 0 <= nth k med_dd 0)
   /\ (forall k, (k < trough)%nat -> nth trough med_dd 0 < nth k med_dd 0))
  /\ (forall j, (trough <= j < length med_path)%nat ->
        prev_peak <= nth j med_path 0 ->
        (forall k, (trough <= k < j)%nat -> nth k med_path 0 < prev_peak) ->
        Drawdown.recovery_months med_path = (Z.of_nat j - Z.of_nat trough)%Z)
  /\ ((forall k, (trough <= k < length med_path)%nat ->
                 nth k med_path 0 < prev_peak) ->
      Drawdown.recovery_months med_path = 0%Z).
Proof.
  intros med_peak med_dd trough prev_peak.
  assert (Hscan : forall k, (trough <= k)%nat ->
            nth (k - trough) (drop trough med_path) 0 = nth k med_path 0).
  { intros k Hk. unfold drop. rewrite nth_skipn. f_equal. lia. }
  pose proof (first_recovered_spec prev_peak (drop trough med_path) trough)
    as Hspec.
  assert (Hlen : length (drop trough med_path) = (length med_path - trough)%nat)
    by apply length_drop.
  split; [|split].
  - intros Hne.
    assert (Hdd : med_dd <> []).
    { intros Hnil. apply (f_equal length) in Hnil.
      unfold med_dd in Hnil. rewrite length_drawdown_series in Hnil.
      destruct med_path; [congruence | discriminate]. }
    destruct (np_argmin_first_minimum med_dd Hdd) as (Hr & Hmin & Hfirst).
    unfold med_dd in Hr, Hmin. rewrite length_drawdown_series in Hr, Hmin.
    auto.
  - intros j Hj Hrec Hbefore.
    unfold Drawdown.recovery_months.
    change (@zero Q Q_arith) with (0 : Q) in *.
    fold med_peak. change (zip_with div (zip_with sub med_path med_peak) med_peak)
      with med_dd. fold trough. fold prev_peak.
    destruct (Drawdown.first_recovered prev_peak trough (drop trough med_path))
      as [j'|].
    + destruct Hspec as (Hj' & Hle & Hnot). cbn [from_option id].
      rewrite Hscan in Hle by lia. apply Q_leb_true in Hle.
      assert (j' = j) as ->; [|lia].
      destruct (lt_eq_lt_dec j' j) as [[Hlt|Heq]|Hgt]; [|exact Heq|].
      * exfalso. apply (Qlt_not_le _ _ (Hbefore j' ltac:(lia)) Hle).
      * exfalso. specialize (Hnot j ltac:(lia)).
        rewrite Hscan in Hnot by lia. apply Q_leb_false in Hnot.
        apply (Qlt_not_le _ _ Hnot Hrec).
    + exfalso. specialize (Hspec j ltac:(lia)).
      rewrite Hscan in Hspec by lia. apply Q_leb_false in Hspec.
      apply (Qlt_not_le _ _ Hspec Hrec).
  - intros Hnever.
    unfold Drawdown.recovery_months.
    change (@zero Q Q_arith) with (0 : Q) in *.
    fold med_peak. change (zip_with div (zip_with sub med_path med_peak) med_peak)
      with med_dd. fold trough. fold prev_peak.
    destruct (Drawdown.first_recovered prev_peak trough (drop trough med_path))
      as [j'|]; cbn [from_option id]; [|lia].
    exfalso. destruct Hspec as (Hj' & Hle & _).
    rewrite Hscan in Hle by lia. apply Q_leb_true in Hle.
    apply (Qlt_not_le _ _ (Hnever j' ltac:(lia)) Hle).
Qed.

(** *** Sorting and percentiles *)

Lemma insert_sorted_Forall (P : Q -> Prop) (x : Q) (l : list Q) :
  P x -> Forall P l -> Forall P (insert_sorted x l).
Proof.
  intros Hx Hl. induction Hl as [|y l Hy Hl IH]; simpl.
  - constructor; [exact Hx | constructor].
  - destruct (sort_le x y).
    + constructor; [exact Hx|]. constructor; [exact Hy | exact Hl].
    + constructor; [exact Hy | exact IH].
Qed.




Lemma lerp_exact (a b t : Q) : lerp a b t == a + (b - a) * t.
Proof.
  unfold lerp. q_ops. destruct (Qle_bool _ t); ring.
Qed.

(** [percentile] over [Q], in closed form: with [s] the sorted column and
    [v = (n-1) q/100] the virtual index, the result is
    [s[k] + (s[k+1] - s[k]) g] for the integer part [k] and the fractional
    part [g] of [v] (and [s[n-1]] when [v] reaches [n-1]). *)
Lemma percentile_exact (a : list Q) (q : Z) :
  a <> [] -> (0 <= q <= 100)%Z ->
  exists (x : Q) (k : nat) (g : Q),
    percentile a q = Ok x
    /\ (k <= length a - 1)%nat
    /\ 0 <= g /\ g < 1
    /\ inject_Z (Z.of_nat k) + g
       == inject_Z (Z.of_nat (length a) - 1) * (inject_Z q * (1 # 100))
    /\ x == nth k (np_sort a) 0
            + (nth (Nat.min (S k) (length a - 1)) (np_sort a) 0
               - nth k (np_sort a) 0) * g.
Proof.
  intros Hne Hq.
  assert (Hn : (0 < length a)%nat) by (destruct a; [congruence | simpl; lia]).
  pose proof (length_np_sort a) as Hlen.
  assert (Hsne : np_sort a <> []).
  { intros Hnil. rewrite Hnil in Hlen. simpl in Hlen. lia. }
  unfold percentile. cbv zeta. q_ops.
  change (inject_Z q / inject_Z 100) with (inject_Z q * (1 # 100)).
  set (N := (Z.of_nat (length a) - 1)%Z).
  set (v := inject_Z N * (inject_Z q * (1 # 100))).
  assert (HN : 0 <= inject_Z N) by (rewrite <- (Zle_Qle 0); lia).
  assert (Hq0 : 0 <= inject_Z q) by (rewrite <- (Zle_Qle 0); lia).
  assert (Hq1 : inject_Z q <= inject_Z 100) by (rewrite <- Zle_Qle; lia).
  change (inject_Z 100) with 100 in Hq1.
  assert (Hv0 : 0 <= v) by (unfold v; nra).
  assert (HvN : v <= inject_Z N) by (unfold v; nra).
  rewrite (py_index_last _ Hsne). rewrite <- (nth_pred_length_last _ zero Hsne).
  rewrite Hlen.
  destruct (Qle_bool (inject_Z N) v) eqn:Habove.
  - apply Qle_bool_iff in Habove.
    rewrite (py_index_last _ Hsne). rewrite <- (nth_pred_length_last _ zero Hsne).
    rewrite Hlen. cbn [mbind result_bind].
    eexists. exists (length a - 1)%nat, 0. split; [reflexivity|].
    split; [lia|]. split; [apply Qle_refl|]. split; [reflexivity|]. split.
    + replace (Z.of_nat (length a - 1)) with N by lia. fold v. lra.
    + replace (Nat.min (S (length a - 1)) (length a - 1)) with (length a - 1)%nat
        by lia.
      rewrite lerp_exact. q_ops. ring.
  - apply Q_leb_false in Habove.
    replace (negb (Qle_bool 0 v)) with false
      by (symmetry; apply negb_false_iff, Qle_bool_iff; exact Hv0).
    pose proof (Qfloor_le v) as Hfl. pose proof (Qlt_floor v) as Hfu.
    assert (Hk0 : (0 <= Qfloor v)%Z).
    { change 0%Z with (Qfloor 0). apply Qfloor_resp_le. exact Hv0. }
    assert (HkN : (Qfloor v < N)%Z).
    { rewrite Zlt_Qlt. apply (Qle_lt_trans _ v); assumption. }
    rewrite (py_index_in_range _ (Qfloor v)) by (rewrite Hlen; lia).
    rewrite (py_index_in_range _ (Qfloor v + 1)) by (rewrite Hlen; lia).
    cbn [mbind result_bind].
    eexists. exists (Z.to_nat (Qfloor v)), (v - inject_Z (Qfloor v)).
    split; [reflexivity|].
    split; [lia|]. split; [lra|].
    split; [rewrite inject_Z_plus in Hfu; change (inject_Z 1) with 1 in Hfu; lra|].
    split.
    + rewrite Z2Nat.id by exact Hk0. fold v. ring.
    + rewrite lerp_exact.
      replace (Nat.min (S (Z.to_nat (Qfloor v))) (length a - 1))
        with (Z.to_nat (Qfloor v + 1)) by lia.
      q_ops. ring.
Qed.

Lemma percentile_Ok_nonempty (a : list Q) (q : Z) (x : Q) :
  percentile a q = Ok x -> a <> [].
Proof.
  unfold percentile. cbv zeta. intros Hx.
  apply bind_Ok_inv in Hx as (p & Hp & _).
  apply py_index_Ok_nonempty in Hp. intros ->. apply Hp. reflexivity.
Qed.



(** *** Rounding and sanitizing exact values *)





Lemma sanitize_list_exact (l : list Q) : sanitize_list l = l.
Proof.
  unfold sanitize_list. induction l as [|x l IH]; [reflexivity|].
  cbn [map]. rewrite IH. reflexivity.
Qed.


(** *** The bands of the three simulators *)




End ExactFacts.

(** ** Determinism under a seed *)

(** Two successful reads of the same step yield the same value. *)
Ltac lockstep H1 H2 :=
  let x := fresh "x" in
  let Hx := fresh "Hx" in
  let y := fresh "y" in
  let Hy := fresh "Hy" in
  apply bind_Ok_inv in H1 as (x & Hx & H1);
  apply bind_Ok_inv in H2 as (y & Hy & H2);
  rewrite Hx in Hy; injection Hy as <-.

Section Determinism.
Context {num : Type} {arith : Arith num} {libm : Libm num} {rng : Rng num}.

Lemma seeded_state (s : Z) (w1 w2 : world) :
  np_random_seed (Some s) w1 = np_random_seed (Some s) w2.
Proof. unfold np_random_seed. destruct ((0 <=? s) && (s <? 2 ^ 32)); reflexivity. Qed.

Lemma compound_wealth_seeded (req : Compound.SimRequest) (s : Z) (w1 w2 : world) :
  Compound.seed req = Some s ->
  Compound.simulate_wealth req w1 = Compound.simulate_wealth req w2.
Proof.
  intros Hseed. unfold Compound.simulate_wealth.
  rewrite Hseed, (seeded_state s w1 w2). reflexivity.
Qed.

Lemma drawdown_paths_seeded (req : Drawdown.DrawdownRequest) (s : Z) (w1 w2 : world) :
  Drawdown.seed req = Some s ->
  Drawdown.drawdown_paths req w1 = Drawdown.drawdown_paths req w2.
Proof.
  intros Hseed. unfold Drawdown.drawdown_paths.
  rewrite Hseed, (seeded_state s w1 w2). reflexivity.
Qed.

Lemma fire_wealth_seeded (req : Fire.FireRequest) (s : Z) (w1 w2 : world) :
  Fire.seed req = Some s ->
  Fire.fire_wealth req w1 = Fire.fire_wealth req w2.
Proof.
  intros Hseed. unfold Fire.fire_wealth.
  rewrite Hseed, (seeded_state s w1 w2). reflexivity.
Qed.

(** C3.  Take any two states of the process (generator state, entropy,
    date) and a request that carries a seed.  The compound calculator
    answers the same in both: same ensemble, same response or same
    exception.  So do the drawdown and FIRE calculators for their
    ensembles; their percentile bands and summaries agree whenever both
    runs answer, and the whole responses agree, labels included, when the
    start date is the same in both runs. *)
Theorem seeded_runs_are_identical (w1 w2 : world) :
  (forall (req : Compound.SimRequest) (s : Z),
      Compound.seed req = Some s ->
      Compound.simulate_wealth req w1 = Compound.simulate_wealth req w2
      /\ Compound.simulate_paths req w1 = Compound.simulate_paths req w2)
  /\ (forall (req : Drawdown.DrawdownRequest) (s : Z),
        Drawdown.seed req = Some s ->
        Drawdown.drawdown_paths req w1 = Drawdown.drawdown_paths req w2
        /\ (forall o1 o2,
              Drawdown.drawdown req w1 = Ok o1 ->
              Drawdown.drawdown req w2 = Ok o2 ->
              Drawdown.r_percentiles o1 = Drawdown.r_percentiles o2
              /\ Drawdown.r_summary o1 = Drawdown.r_summary o2)
        /\ (default (today w1) (Drawdown.start_date req)
            = default (today w2) (Drawdown.start_date req) ->
            Drawdown.drawdown req w1 = Drawdown.drawdown req w2))
  /\ (forall (req : Fire.FireRequest) (s : Z),
        Fire.seed req = Some s ->
        Fire.fire_wealth req w1 = Fire.fire_wealth req w2
        /\ (forall o1 o2,
              Fire.fire req w1 = Ok o1 ->
              Fire.fire req w2 = Ok o2 ->
              Fire.r_percentiles o1 = Fire.r_percentiles o2
              /\ Fire.r_summary o1 = Fire.r_summary o2)
        /\ (default (today w1) (Fire.start_date req)
            = default (today w2) (Fire.start_date req) ->
            Fire.fire req w1 = Fire.fire req w2)).
Proof.
  split; [|split]; intros req s Hseed.
  - pose proof (compound_wealth_seeded req s w1 w2 Hseed) as Hw.
    split; [exact Hw|].
    unfold Compound.simulate_paths. rewrite Hw. reflexivity.
  - pose proof (drawdown_paths_seeded req s w1 w2 Hseed) as Hw.
    split; [exact Hw|]. split.
    + intros o1 o2 H1 H2. unfold Drawdown.drawdown in H1, H2.
      rewrite Hw in H1. cbv zeta in H1, H2.
      lockstep H1 H2. destruct x as [prices dd].
      do 8 lockstep H1 H2.
      bind_inv H1. bind_inv H2.
      injection H1 as <-. injection H2 as <-. split; reflexivity.
    + intros Hdate. unfold Drawdown.drawdown. rewrite Hw, Hdate. reflexivity.
  - pose proof (fire_wealth_seeded req s w1 w2 Hseed) as Hw.
    split; [exact Hw|]. split.
    + intros o1 o2 H1 H2. unfold Fire.fire in H1, H2.
      rewrite Hw in H1. cbv zeta in H1, H2.
      do 8 lockstep H1 H2.
      bind_inv H1. bind_inv H2.
      injection H1 as <-. injection H2 as <-. split; reflexivity.
    + intros Hdate. unfold Fire.fire. rewrite Hw, Hdate. reflexivity.
Qed.

End Determinism.

(** ** The shape of the draws *)

Section Draws.
Context {num : Type} {arith : Arith num} {rng : Rng num}.

Lemma gauss_row_length (k : nat) (st : rng_state) :
  length (fst (gauss_row k st)) = k.
Proof.
  revert st. induction k as [|k IH]; intros st; simpl; [reflexivity|].
  destruct (legacy_gauss st) as [z st1].
  specialize (IH st1). destruct (gauss_row k st1) as [zs st2].
  simpl in *. f_equal. exact IH.
Qed.

Lemma gauss_matrix_shape (n k : nat) (st : rng_state) :
  length (fst (gauss_matrix n k st)) = n
  /\ Forall (fun row => length row = k) (fst (gauss_matrix n k st)).
Proof.
  revert st. induction n as [|n IH]; intros st; simpl.
  - split; [reflexivity | constructor].
  - pose proof (gauss_row_length k st) as Hrow.
    destruct (gauss_row k st) as [r st1].
    specialize (IH st1). destruct (gauss_matrix n k st1) as [rs st2].
    simpl in *. destruct IH as [Hlen Hrows].
    split; [f_equal; exact Hlen | constructor; [exact Hrow | exact Hrows]].
Qed.

Lemma randn_shape (n T : Z) (st : rng_state) :
  (0 <= n)%Z -> (0 <= T)%Z ->
  exists M st', randn n T st = Ok (M, st')
    /\ length M = Z.to_nat n
    /\ Forall (fun row => length row = Z.to_nat T) M.
Proof.
  intros Hn HT. unfold randn.
  replace ((n <? 0) || (T <? 0)) with false
    by (symmetry; apply orb_false_intro; apply Z.ltb_ge; lia).
  pose proof (gauss_matrix_shape (Z.to_nat n) (Z.to_nat T) st) as [Hlen Hrows].
  destruct (gauss_matrix (Z.to_nat n) (Z.to_nat T) st) as [M st'].
  exists M, st'. simpl in *. auto.
Qed.

End Draws.

(** ** The FIRE schedules and wealth recurrence *)

Section FireShape.
Context {num : Type} {arith : Arith num}.

Lemma np_setitem_in_range {A : Type} (a : list A) (i : Z) (v : A) :
  (0 <= i < Z.of_nat (length a))%Z ->
  np_setitem a i v = Ok (<[Z.to_nat i := v]> a).
Proof.
  intros Hi. unfold np_setitem.
  replace (i <? 0) with false by (symmetry; apply Z.ltb_ge; lia).
  replace ((i <? 0) || (Z.of_nat (length a) <=? i)) with false; [reflexivity|].
  symmetry. apply orb_false_intro; [apply Z.ltb_ge | apply Z.leb_gt]; lia.
Qed.





End FireShape.

(** ** Exact arithmetic: the simulators *)

Section ExactSimulation.
Context (L : Libm Q) (R : Rng Q).
Local Open Scope Q_scope.

Lemma percentile_Ok (a : list Q) (q : Z) :
  a <> [] -> (0 <= q <= 100)%Z -> exists x, percentile a q = Ok x.
Proof.
  intros Hne Hq.
  destruct (percentile_exact a q Hne Hq) as (x & _ & _ & Hx & _).
  exists x. exact Hx.
Qed.

Lemma percentile_axis0_Ok (M : list (list Q)) (ncols : nat) (q : Z) :
  M <> [] -> (0 <= q <= 100)%Z ->
  exists l, percentile_axis0 M ncols q = Ok l /\ length l = ncols.
Proof.
  intros Hne Hq. unfold percentile_axis0.
  destruct (traverse_Ok_total (fun t => percentile (column M t) q) (seq 0 ncols))
    as (l & Hl).
  - intros t _. apply percentile_Ok; [|exact Hq].
    unfold column. destruct M; [congruence | discriminate].
  - exists l. split; [exact Hl|].
    rewrite (traverse_length _ _ _ Hl). apply length_seq.
Qed.

Lemma np_sort_Forall (P : Q -> Prop) (a : list Q) :
  Forall P a -> Forall P (np_sort a).
Proof.
  induction 1 as [|x a Hx Ha IH]; simpl; [constructor|].
  apply insert_sorted_Forall; assumption.
Qed.

(** The percentile of a column whose entries all equal [c] is [c]. *)
Lemma percentile_constant (c : Q) (a : list Q) (q : Z) (x : Q) :
  (0 <= q <= 100)%Z ->
  Forall (fun y => y == c) a -> percentile a q = Ok x -> x == c.
Proof.
  intros Hq Hall Hx.
  pose proof (percentile_Ok_nonempty _ _ _ Hx) as Hne.
  destruct (percentile_exact a q Hne Hq) as (y & k & g & Hy & Hk & _ & _ & _ & Hval).
  rewrite Hx in Hy. injection Hy as <-.
  assert (Hn : (0 < length a)%nat) by (destruct a; [congruence | simpl; lia]).
  pose proof (np_sort_Forall _ _ Hall) as Hs. rewrite Forall_forall in Hs.
  assert (Hnth : forall i, (i < length a)%nat -> nth i (np_sort a) 0 == c).
  { intros i Hi. apply Hs, list_elem_of_In, nth_In.
    rewrite length_np_sort. exact Hi. }
  rewrite Hval, (Hnth k), (Hnth (Nat.min (S k) (length a - 1))) by lia. ring.
Qed.

(** *** The compound scenario *)

(** With every growth factor 1 and every contribution [c], the wealth after
    [t + 1] periods is the start plus [t + 1] contributions. *)
Lemma compound_wealth_path_flat (c : Q) (growth contrib : list Q) :
  Forall (fun g => g == 1) growth ->
  Forall (fun x => x == c) contrib ->
  length growth = length contrib ->
  forall w : Q,
    length (Compound.wealth_path w growth contrib) = length growth
    /\ forall t, (t < length growth)%nat ->
         nth t (Compound.wealth_path w growth contrib) 0
         == w + inject_Z (Z.of_nat (S t)) * c.
Proof.
  intros Hg. revert contrib.
  induction Hg as [|g growth Hg1 Hg IH]; intros contrib Hc Hlen w.
  - split; [reflexivity | simpl; intros t Ht; lia].
  - destruct Hc as [|x contrib Hx Hc]; [discriminate Hlen|].
    injection Hlen as Hlen. cbn [Compound.wealth_path]. cbv zeta.
    destruct (IH contrib Hc Hlen (w .* g .+ x)%num) as [IHlen IHnth].
    split; [simpl; f_equal; exact IHlen|].
    intros [|t] Ht; cbn [nth].
    + q_ops. rewrite Hg1, Hx. change (inject_Z (Z.of_nat 1)) with 1. ring.
    + rewrite IHnth by (simpl in Ht; lia). q_ops. rewrite Hg1, Hx.
      rewrite !Nat2Z.inj_succ. unfold Z.succ. rewrite !inject_Z_plus.
      change (inject_Z 1) with 1. ring.
Qed.

(** Lines 33-53 at [terminal_request n]: [n] paths of 13 values, each
    ending on 12000. *)
Lemma terminal_wealth (n : Z) (w : world) :
  (forall x, x == 0 -> fexp x == 1) ->
  fpow (of_Z 0) (of_Z 2) == 0 ->
  fpow (one .+ of_Z 0)%num (of_Z 0) == 1 ->
  (0 <= n)%Z ->
  exists wealth schedule,
    Compound.simulate_wealth (terminal_request n) w = Ok (wealth, schedule)
    /\ length wealth = Z.to_nat n
    /\ Forall (fun path => length path = 13%nat /\ nth 12 path 0 == 12000) wealth.
Proof.
  intros Hexp Hpow2 Hpow0 Hn.
  set (c := ((of_Z 12000 .* fpow (one .+ of_Z 0) (of_Z 0)) ./ of_Z 12)%num).
  assert (Hc : c == 1000).
  { unfold c. q_ops. rewrite Hpow0.
    change (inject_Z 12000) with 12000. change (inject_Z 12) with 12.
    field. }
  assert (Hsched : Compound.contrib_schedule (terminal_request n)
                   = Ok (replicate 12 c)) by reflexivity.
  set (vol2 := fpow (of_Z 0) (of_Z 2)) in *.
  set (dt := (one ./ of_Z 12)%num).
  set (drift := ((of_Z 0 .- of_Z 0 .- lit 1 2 .* vol2) .* dt)%num).
  set (vol := (of_Z 0 .* fsqrt dt)%num).
  assert (Hdrift : drift == 0).
  { unfold drift, dt. q_ops. rewrite Hpow2. reflexivity. }
  assert (Hvol : vol == 0) by (unfold vol; q_ops; ring).
  destruct (randn_shape n 12 (os_entropy w) Hn ltac:(lia))
    as (Z & st' & Hrandn & Hrows & Hcols).
  exists (map (fun growth => (of_Z 0 : Q)
                 :: Compound.wealth_path (of_Z 0) growth (replicate 12 c))
              (map (map fexp)
                   (map (map (fun z => (drift .+ vol .* z)%num)) Z))),
         (replicate 12 c).
  split; [|split].
  - unfold Compound.simulate_wealth. cbv zeta.
    cbn [Compound.seed Compound.years Compound.frequency Compound.n_sims
         Compound.expected_return Compound.expense_ratio Compound.volatility
         Compound.initial terminal_request np_random_seed mbind result_bind].
    change (py_div one (of_Z 12)) with (Ok dt).
    change (py_pow (of_Z 0) (of_Z 2)) with (Ok vol2).
    cbn [mbind result_bind]. rewrite Hsched. cbn [mbind result_bind].
    fold dt. fold drift. fold vol.
    unfold random_normal.
    replace ((vol .< zero)%num) with false
      by (symmetry; apply Q_ltb_false; unfold zero; q_ops; lra).
    change (1 * 12)%Z with 12%Z. rewrite Hrandn. reflexivity.
  - rewrite !length_map. exact Hrows.
  - rewrite !Forall_map. rewrite Forall_forall in Hcols |- *.
    intros zs Hzs. specialize (Hcols zs Hzs).
    destruct (compound_wealth_path_flat c
                (map fexp (map (fun z => (drift .+ vol .* z)%num) zs))
                (replicate 12 c)) with (w := (of_Z 0 : Q)) as [Hlen Hnth].
    + rewrite !Forall_map. apply Forall_forall. intros z _.
      apply Hexp. q_ops. rewrite Hdrift, Hvol. ring.
    + apply Forall_forall. intros x Hx.
      apply elem_of_replicate in Hx as [-> _]. reflexivity.
    + rewrite !length_map, length_replicate. exact Hcols.
    + rewrite !length_map in Hlen, Hnth. rewrite Hcols in Hlen, Hnth.
      split; [simpl; f_equal; exact Hlen|].
      cbn [nth]. rewrite (Hnth 11%nat) by (simpl; lia). rewrite Hc.
      q_ops. reflexivity.
Qed.

Lemma terminal_request_valid (n : Z) :
  (50 <= n <= 20000)%Z ->
  Compound.SimRequest_valid (num := Q) (terminal_request n) = true.
Proof.
  intros Hn. unfold Compound.SimRequest_valid, terminal_request.
  cbn [Compound.initial Compound.annual_contribution
       Compound.contribution_growth Compound.years Compound.n_sims
       Compound.expense_ratio Compound.inflation Compound.target
       Compound.frequency].
  rewrite (proj2 (Z.leb_le 50 n)), (proj2 (Z.leb_le n 20000)) by lia.
  reflexivity.
Qed.

(** C2, as the code has it.  In exact arithmetic, with [exp 0 = 1],
    [0 ** 2 = 0] and [1 ** 0 = 1]: for every simulation count the request
    validation accepts (50 to 20000) the [/simulate] endpoint answers, every
    path of the ensemble ends on 12000, and so does the median band. *)
Theorem twelve_contributions_reach_12000 (n : Z) (w : world) :
  (forall x, x == 0 -> fexp x == 1) ->
  fpow (of_Z 0) (of_Z 2) == 0 ->
  fpow (one .+ of_Z 0)%num (of_Z 0) == 1 ->
  (50 <= n <= 20000)%Z ->
  exists wealth schedule out,
    Compound.simulate_wealth (terminal_request n) w = Ok (wealth, schedule)
    /\ Compound.simulate (terminal_request n) w = Ok out
    /\ length wealth = Z.to_nat n
    /\ (forall path, path ∈ wealth -> List.last path 0 == 12000)
    /\ List.last (Compound.p50 (Compound.r_percentiles out)) 0 == 12000.
Proof.
  intros Hexp Hpow2 Hpow0 Hn.
  destruct (terminal_wealth n w Hexp Hpow2 Hpow0 ltac:(lia))
    as (wealth & schedule & Hw & Hlen & Hrows).
  assert (Hne : wealth <> []).
  { intros ->. simpl in Hlen. lia. }
  set (infl := map (fun t => fpow (one .+ lit 2 100)%num
                                  (of_Z t .* (one ./ of_Z 12))%num)
                   (seqZ 0 13)).
  set (wealth_real := map (fun row => zip_with div row infl) wealth).
  assert (Hne_real : wealth_real <> []).
  { unfold wealth_real. destruct wealth; [congruence | discriminate]. }
  assert (Hne_final : column wealth 12 <> []).
  { unfold column. destruct wealth; [congruence | discriminate]. }
  destruct (percentile_axis0_Ok wealth 13 10 Hne ltac:(lia)) as (q10 & E10 & _).
  destruct (percentile_axis0_Ok wealth 13 25 Hne ltac:(lia)) as (q25 & E25 & _).
  destruct (percentile_axis0_Ok wealth 13 50 Hne ltac:(lia)) as (q50 & E50 & L50).
  destruct (percentile_axis0_Ok wealth 13 75 Hne ltac:(lia)) as (q75 & E75 & _).
  destruct (percentile_axis0_Ok wealth 13 90 Hne ltac:(lia)) as (q90 & E90 & _).
  destruct (percentile_axis0_Ok wealth_real 13 50 Hne_real ltac:(lia))
    as (qreal & Ereal & Lreal).
  destruct (percentile_Ok (column wealth 12) 10 Hne_final ltac:(lia)) as (f10 & F10).
  destruct (percentile_Ok (column wealth 12) 90 Hne_final ltac:(lia)) as (f90 & F90).
  assert (Hq50 : q50 <> []) by (intros ->; discriminate L50).
  assert (Hqreal : qreal <> []) by (intros ->; discriminate Lreal).
  exists wealth, schedule. eexists.
  split; [exact Hw|]. split; [|split; [exact Hlen|split]].
  - unfold Compound.simulate. rewrite (terminal_request_valid n Hn).
    unfold Compound.simulate_paths. rewrite Hw. cbv zeta.
    cbn [mbind result_bind Compound.years Compound.frequency
         Compound.inflation Compound.target terminal_request].
    change (Z.to_nat (1 * 12 + 1)) with 13%nat.
    change (Z.to_nat (1 * 12)) with 12%nat.
    change (1 * 12 + 1)%Z with 13%Z.
    fold infl. fold wealth_real.
    rewrite E10, E25, E50, E75, E90, Ereal. cbn [mbind result_bind].
    rewrite F10, F90. cbn [mbind result_bind Compound.p50 Compound.p50_real].
    unfold tolist_safe. rewrite !sanitize_list_exact.
    rewrite (py_index_last _ Hq50), (py_index_last _ Hqreal).
    cbn [mbind result_bind]. reflexivity.
  - intros path Hpath. rewrite Forall_forall in Hrows.
    destruct (Hrows path Hpath) as [Hlen13 Hlast].
    rewrite <- (nth_pred_length_last path 0) by (intros ->; discriminate Hlen13).
    rewrite Hlen13. exact Hlast.
  - cbn [Compound.r_percentiles Compound.p50].
    rewrite <- (nth_pred_length_last q50 0 Hq50), L50. cbn [Nat.sub].
    assert (H12 : (12 < length q50)%nat) by lia.
    apply lookup_lt_is_Some in H12 as (x & Hx).
    rewrite (nth_lookup_Some _ _ _ _ Hx).
    unfold percentile_axis0 in E50.
    destruct (traverse_lookup_inv _ _ _ _ _ E50 Hx) as (t & Ht & Hp).
    apply lookup_seq in Ht as [-> _]. cbn [Nat.add] in Hp.
    apply (percentile_constant 12000 (column wealth 12) 50 x ltac:(lia));
      [|exact Hp].
    unfold column. rewrite Forall_map. apply Forall_forall.
    intros path Hpath. rewrite Forall_forall in Hrows.
    apply (Hrows path Hpath).
Qed.

(** *** The FIRE plan without spending *)







(** *** Means, medians and rounding of constant data *)










End ExactSimulation.

(** ** The statements at concrete requests *)

Lemma out_of_range_extra_payment_witness :
  Mortgage.mortgage (libm := Sample.float_libm) (Date 2024 1 31)
    (set_extra_payments balloon_request (Some ([] ++ late_payment :: [])))
  = Mortgage.mortgage (libm := Sample.float_libm) (Date 2024 1 31)
      (set_extra_payments balloon_request (Some ([] ++ [])))
  /\ Mortgage.mortgage (libm := Sample.float_libm) (Date 2024 1 31)
       (set_extra_payments balloon_request (Some [late_payment]))
     = Mortgage.mortgage (libm := Sample.float_libm) (Date 2024 1 31)
         (set_extra_payments balloon_request None).
Proof.
  apply (out_of_range_extra_payment_is_ignored
           (Date 2024 1 31) balloon_request late_payment [] []).
  simpl. lia.
Defined.

Lemma balloon_loan_witness :
  exists resp : Mortgage.MortgageResponse,
    Mortgage.mortgage (libm := Sample.float_libm) (Date 2024 1 31) balloon_request
    = Ok resp
    /\ Mortgage.is_balloon (Mortgage.r_summary resp) = true
    /\ Mortgage.payoff_months (Mortgage.r_summary resp) = 12
    /\ Mortgage.r_labels resp !! 12%nat
       = Some (Mortgage.payoff_date (Mortgage.r_summary resp)).
Proof.
  destruct (Mortgage.mortgage (libm := Sample.float_libm) (Date 2024 1 31)
              balloon_request) as [resp|e] eqn:Hresp.
  - exists resp. split; [reflexivity|].
    destruct (balloon_loan_payoff_summary _ _ _ Hresp)
      as (main & Hmain & Hballoon & Hunpaid).
    vm_compute in Hmain. injection Hmain as <-.
    split; [rewrite Hballoon; reflexivity|].
    destruct Hunpaid as (_ & Hmonths & Hlabel).
    + intros v Hv. apply list_elem_of_In in Hv. simpl in Hv.
      repeat (destruct Hv as [<-|Hv]; [reflexivity|]). destruct Hv.
    + rewrite Hmonths in Hlabel. split; [exact Hmonths | exact Hlabel].
  - vm_compute in Hresp. discriminate Hresp.
Defined.

(** C2, where the claim departs from the code: a request for a single
    simulation does not pass [SimRequest] ([n_sims] has [ge=50]), so the
    endpoint answers it with a validation error, whatever libm, generator
    and process state. *)
Lemma single_simulation_is_rejected :
  Compound.SimRequest_valid (num := float) (terminal_request 1) = false
  /\ ~ (exists (L : Libm float) (R : Rng float) (w : world)
               (out : Compound.SimResponse),
           Compound.simulate (terminal_request 1) w = Ok out).
Proof.
  split; [vm_compute; reflexivity|].
  intros (L & R & w & out & Hout). unfold Compound.simulate in Hout.
  replace (Compound.SimRequest_valid (terminal_request 1)) with false in Hout
    by (vm_compute; reflexivity).
  discriminate Hout.
Qed.

Lemma twelve_contributions_witness :
  exists wealth schedule out,
    Compound.simulate_wealth (libm := Sample.libm) (rng := Sample.rng)
      (terminal_request 50) Sample.world0 = Ok (wealth, schedule)
    /\ Compound.simulate (libm := Sample.libm) (rng := Sample.rng)
         (terminal_request 50) Sample.world0 = Ok out
    /\ length wealth = Z.to_nat 50
    /\ (forall path, path ∈ wealth -> (List.last path 0 == 12000)%Q)
    /\ (List.last (Compound.p50 (Compound.r_percentiles out)) 0 == 12000)%Q.
Proof.
  apply (twelve_contributions_reach_12000 Sample.libm Sample.rng 50 Sample.world0).
  - intros x Hx. cbn [fexp Sample.libm]. unfold Sample.exp2.
    rewrite Hx. reflexivity.
  - reflexivity.
  - reflexivity.
  - lia.
Defined.



(** The same scenario evaluated on binary64 with fifty simulations: the
    last entry of every path and of the median band is the double 12000.0
    (twelve additions of 1000.0 are exact). *)
Lemma terminal_request_binary64 :
  exists wealth schedule out,
    Compound.simulate_wealth (libm := Sample.float_libm) (rng := Sample.float_rng)
      (terminal_request 50) Sample.float_world = Ok (wealth, schedule)
    /\ length wealth = 50%nat
    /\ forallb (fun path => PrimFloat.eqb (List.last path zero) (Binary64.Z2f 12000))
         wealth = true
    /\ Compound.simulate (libm := Sample.float_libm) (rng := Sample.float_rng)
         (terminal_request 50) Sample.float_world = Ok out
    /\ List.last (Compound.p50 (Compound.r_percentiles out)) zero
       = Binary64.Z2f 12000.
Proof.
  do 3 eexists. split; [vm_compute; reflexivity|].
  split; [reflexivity|]. split; [vm_compute; reflexivity|].
  split; [vm_compute; reflexivity|]. vm_compute. reflexivity.
Qed.

(** * Further properties of the calculators *)

(** ** Calendar arithmetic of [add_months] *)

Lemma days_in_month_range (y m : Z) : 28 <= days_in_month y m <= 31.
Proof.
  unfold days_in_month.
  destruct (m =? 2); [destruct (is_leap y); lia|].
  destruct ((m =? 4) || (m =? 6) || (m =? 9) || (m =? 11)); lia.
Qed.

Lemma add_months_Ok (d d' : date) (k : Z) :
  add_months d k = Ok d' ->
  year d' = year d + (month d - 1 + k) / 12
  /\ month d' = (month d - 1 + k) mod 12 + 1
  /\ day d' = Z.min (day d) (days_in_month (year d') (month d'))
  /\ 1 <= year d' <= 9999.
Proof.
  unfold add_months. intros H.
  destruct ((1 <=? year d + (month d - 1 + k) / 12)
            && (year d + (month d - 1 + k) / 12 <=? 9999)) eqn:Hy;
    [|discriminate H].
  injection H as <-. cbn [year month day].
  apply andb_prop in Hy as [H1 H2].
  apply Z.leb_le in H1. apply Z.leb_le in H2. auto.
Qed.


(** X2.  For a start day that every month has (at most the 28th), moving
    by [a] months and then by [b] is moving by [a + b]: the same date, and
    the same [ValueError] when the year leaves 1..9999. *)
Theorem add_months_composes_below_the_29th (d d1 : date) (a b : Z) :
  day d <= 28 ->
  add_months d a = Ok d1 ->
  add_months d1 b = add_months d (a + b).
Proof.
  intros Hday H. apply add_months_Ok in H as (Hy & Hm & Hd & Hr).
  pose proof (days_in_month_range (year d1) (month d1)) as Hdim.
  assert (Hd1 : day d1 = day d) by lia.
  pose proof (Z.div_mod (month d - 1 + a) 12 ltac:(lia)) as HX.
  assert (Hsplit : month d - 1 + (a + b)
                   = ((month d - 1 + a) mod 12 + b)
                     + (month d - 1 + a) / 12 * 12) by lia.
  assert (Hq : year d1 + (month d1 - 1 + b) / 12
               = year d + (month d - 1 + (a + b)) / 12).
  { rewrite Hsplit, Z.div_add by lia. rewrite Hy, Hm.
    replace ((month d - 1 + a) mod 12 + 1 - 1 + b)
      with ((month d - 1 + a) mod 12 + b) by lia.
    lia. }
  assert (Hr' : (month d1 - 1 + b) mod 12 = (month d - 1 + (a + b)) mod 12).
  { rewrite Hsplit, Z.mod_add by lia. rewrite Hm.
    replace ((month d - 1 + a) mod 12 + 1 - 1 + b)
      with ((month d - 1 + a) mod 12 + b) by lia.
    reflexivity. }
  unfold add_months. rewrite Hq, Hr', Hd1.
  reflexivity.
Qed.


Lemma add_months_composes_witness :
  add_months (Date 2024 2 28) (-14) = add_months (Date 2023 11 28) (3 + -14).
Proof.
  exact (add_months_composes_below_the_29th
           (Date 2023 11 28) (Date 2024 2 28) 3 (-14) ltac:(simpl; lia) eq_refl).
Defined.

(** ** The amortization schedule as a ledger *)

Section LedgerFacts.
Context {num : Type} {arith : Arith num} {libm : Libm num}.
Import Mortgage.

Lemma fold_add_extra_lookup (term_m k : Z) (eps : list ExtraPayment) :
  forall mp : gmap Z num,
    fold_left (add_extra term_m) eps mp !! k =
      let lumps := map ep_amount
                       (List.filter (fun ep => month_index ep =? k) eps) in
      if (1 <=? k) && (k <=? term_m) && negb (Nat.eqb (length lumps) 0)
      then Some (fold_left add lumps (default zero (mp !! k)))
      else mp !! k.
Proof.
  induction eps as [|ep eps IH]; intros mp.
  - cbn. rewrite andb_false_r. reflexivity.
  - cbn [fold_left List.filter]. rewrite IH. clear IH. cbv zeta.
    unfold add_extra. fold (month_index ep).
    destruct (month_index ep =? k) eqn:Hk.
    + apply Z.eqb_eq in Hk. rewrite Hk.
      destruct ((1 <=? k) && (k <=? term_m)) eqn:Hin.
      * cbn [map length Nat.eqb negb andb fold_left].
        rewrite lookup_insert_eq. cbn [default from_option id].
        destruct (Nat.eqb _ 0) eqn:Hl; cbn [negb].
        -- apply Nat.eqb_eq in Hl. apply length_zero_iff_nil in Hl.
           rewrite Hl. reflexivity.
        -- reflexivity.
      * reflexivity.
    + apply Z.eqb_neq in Hk.
      destruct ((1 <=? month_index ep) && (month_index ep <=? term_m)).
      * rewrite lookup_insert_ne by exact Hk. reflexivity.
      * reflexivity.
Qed.

(** X3.  The lump-sum map holds, for a month index [k] in [1..term_m], the
    sum (from 0.0, in request order) of the amounts of all extra payments
    that fall on [k]; it holds nothing for an index outside [1..term_m],
    nor for a month no payment falls on. *)
Theorem extra_payments_on_one_month_add_up
    (term_m k : Z) (eps : list ExtraPayment) :
  build_extra_map term_m (Some eps) !! k =
    let lumps := map ep_amount
                     (List.filter (fun ep => month_index ep =? k) eps) in
    if (1 <=? k) && (k <=? term_m) && negb (Nat.eqb (length lumps) 0)
    then Some (fold_left add lumps zero)
    else None.
Proof.
  unfold build_extra_map. rewrite fold_add_extra_lookup.
  rewrite lookup_empty. reflexivity.
Qed.


Section Loop.
Variables (term_m fixed_m : Z) (i_fixed i_var monthly_overpay : num).
Variables (extra_map : gmap Z num) (recalc_on_change : bool).

Let loop := amortize_loop term_m fixed_m i_fixed i_var monthly_overpay
              extra_map recalc_on_change.
Let row := ledger_row term_m fixed_m i_fixed i_var monthly_overpay
             extra_map recalc_on_change.

Lemma extends_refl (acc : schedule (num := num)) : extends acc acc.
Proof. repeat split; reflexivity. Qed.

Lemma extends_trans (a b c : schedule (num := num)) : extends a b -> extends b c -> extends a c.
Proof.
  intros (A1 & A2 & A3 & A4 & A5) (B1 & B2 & B3 & B4 & B5).
  repeat split; etrans; eassumption.
Qed.

Lemma row_extends (a b : schedule) (prev : num) (k : nat) (m : Z) :
  extends a b -> row a prev k m -> row b prev k m.
Proof.
  intros (A1 & A2 & A3 & A4 & A5)
         (bal & pmt & pay & intr & princ & nb & H1 & H2 & H3 & H4 & H5 & H6 & H).
  exists bal, pmt, pay, intr, princ, nb.
  repeat split; try (eapply prefix_lookup_Some; eassumption); apply H.
Qed.

Lemma amortize_loop_ledger (ms : list Z) :
  forall (bal pmt : num) (acc out : schedule) (n0 : nat),
    loop ms bal pmt acc = Ok out ->
    well_shaped acc n0 ->
    balances acc !! n0 = Some bal ->
    exists r : nat,
      (r <= length ms)%nat
      /\ (ms <> [] -> (1 <= r)%nat)
      /\ well_shaped out (n0 + r)
      /\ extends acc out
      /\ (forall j m, (j < r)%nat -> ms !! j = Some m ->
            row out (match j with
                     | O => pmt
                     | S j' => default zero (sched out !! (n0 + j')%nat)
                     end) (n0 + j) m)
      /\ (forall j b, (0 < j < r)%nat -> balances out !! (n0 + j)%nat = Some b ->
            (b .<= zero) = false)
      /\ ((r < length ms)%nat ->
          exists b, balances out !! (n0 + r)%nat = Some b /\ (b .<= zero) = true).
Proof.
  induction ms as [|m ms IH]; intros bal pmt acc out n0 Hout Hshape Hbal.
  - cbn in Hout. injection Hout as <-. exists 0%nat.
    rewrite Nat.add_0_r. cbn [length].
    split; [lia|]. split; [congruence|]. split; [exact Hshape|].
    split; [apply extends_refl|].
    split; [intros j m' Hj; lia|].
    split; [intros j b Hj; lia|]. lia.
  - unfold loop in Hout. cbn [amortize_loop] in Hout. fold loop in Hout.
    bind_inv Hout. rename x into pmt'. cbv zeta in Hout.
    set (current_rate := if m <=? fixed_m then i_fixed else i_var) in *.
    set (intr := bal .* current_rate) in *.
    set (lump := default zero (extra_map !! m)) in *.
    set (pay_total := pmt' .+ monthly_overpay .+ lump) in *.
    fold (clamp_noise (bal .+ intr .- pay_total)) in Hout.
    set (new_bal := clamp_noise (bal .+ intr .- pay_total)) in *.
    set (acc' := {| balances := balances acc ++ [new_bal];
                    sched := sched acc ++ [pmt'];
                    totalp := totalp acc ++ [pay_total];
                    interest := interest acc ++ [intr];
                    principal_paid := principal_paid acc ++ [pay_total .- intr] |})
      in *.
    destruct Hshape as (S1 & S2 & S3 & S4 & S5).
    assert (Hshape' : well_shaped acc' (S n0)).
    { unfold well_shaped, acc'. cbn [balances sched totalp interest principal_paid].
      rewrite !length_app. cbn [length]. lia. }
    assert (Hext : extends acc acc').
    { unfold extends, acc'. cbn [balances sched totalp interest principal_paid].
      repeat split; apply prefix_app_r; reflexivity. }
    assert (Hbal' : balances acc' !! S n0 = Some new_bal).
    { unfold acc'. cbn [balances].
      rewrite lookup_app_r by lia. rewrite S1, Nat.sub_diag. reflexivity. }
    assert (Hrow : row acc' pmt n0 m).
    { exists bal, pmt', pay_total, intr, (pay_total .- intr), new_bal.
      unfold acc'. cbn [balances sched totalp interest principal_paid].
      split; [rewrite lookup_app_l by lia; exact Hbal|].
      split; [exact Hbal'|].
      split; [rewrite lookup_app_r by lia; rewrite S2, Nat.sub_diag; reflexivity|].
      split; [rewrite lookup_app_r by lia; rewrite S3, Nat.sub_diag; reflexivity|].
      split; [rewrite lookup_app_r by lia; rewrite S4, Nat.sub_diag; reflexivity|].
      split; [rewrite lookup_app_r by lia; rewrite S5, Nat.sub_diag; reflexivity|].
      cbv zeta. fold current_rate.
      split.
      { destruct (recalc_on_change && (m =? fixed_m + 1)).
        - exact Hx.
        - injection Hx as <-. reflexivity. }
      repeat split. }
    assert (Hsched' : sched acc' !! n0 = Some pmt').
    { unfold acc'. cbn [sched].
      rewrite lookup_app_r by lia. rewrite S2, Nat.sub_diag. reflexivity. }
    destruct (new_bal .<= zero) eqn:Hstop.
    + injection Hout as <-. exists 1%nat. cbn [length].
      replace (n0 + 1)%nat with (S n0) by lia.
      split; [lia|]. split; [lia|]. split; [exact Hshape'|].
      split; [exact Hext|].
      split.
      { intros j m' Hj Hm. replace j with 0%nat in * by lia.
        rewrite Nat.add_0_r. cbn in Hm. injection Hm as <-. exact Hrow. }
      split; [intros j b Hj; lia|].
      intros _. exists new_bal. split; [exact Hbal' | exact Hstop].
    + destruct (IH new_bal pmt' acc' out (S n0) Hout Hshape' Hbal')
        as (r & Hr & Hr1 & Hsh & Hext' & Hrows & Hpos & Hearly).
      exists (S r). cbn [length].
      replace (n0 + S r)%nat with (S n0 + r)%nat by lia.
      split; [lia|]. split; [lia|]. split; [exact Hsh|].
      split; [eapply extends_trans; eassumption|].
      split.
      { intros j m' Hj Hm. destruct j as [|j].
        - rewrite Nat.add_0_r. cbn in Hm. injection Hm as <-.
          eapply row_extends; eassumption.
        - cbn in Hm. replace (n0 + S j)%nat with (S n0 + j)%nat by lia.
          specialize (Hrows j m' ltac:(lia) Hm).
          destruct j as [|j].
          + rewrite Nat.add_0_r.
            destruct Hext' as (_ & E2 & _).
            rewrite (prefix_lookup_Some _ _ _ _ Hsched' E2).
            exact Hrows.
          + replace (n0 + S j)%nat with (S n0 + j)%nat by lia. exact Hrows. }
      split.
      { intros j b Hj Hb. destruct (decide (j = 1%nat)) as [->|Hne].
        - replace (n0 + 1)%nat with (S n0) in Hb by lia.
          destruct Hext' as (E1 & _).
          rewrite (prefix_lookup_Some _ _ _ _ Hbal' E1) in Hb.
          injection Hb as <-. exact Hstop.
        - apply (Hpos (j - 1)%nat b); [lia|].
          replace (S n0 + (j - 1))%nat with (n0 + j)%nat by lia. exact Hb. }
      intros Hlt. apply Hearly. lia.
Qed.

End Loop.


(** *** What [_amortize] returns *)

Lemma amortize_ledger (P : num) (term_m fixed_m : Z)
    (fixed_r var_r overpay : num) (extra_map : gmap Z num) (recalc : bool)
    (out : schedule) :
  _amortize P term_m fixed_m fixed_r var_r overpay extra_map recalc = Ok out ->
  exists (n : nat) (pmt0 : num),
    _pmt P (fixed_r ./ of_Z 12) term_m = Ok pmt0
    /\ (n <= Z.to_nat term_m)%nat
    /\ (0 < term_m -> (1 <= n)%nat)
    /\ well_shaped out n
    /\ balances out !! 0%nat = Some P
    /\ (forall k, (k < n)%nat ->
          ledger_row term_m fixed_m (fixed_r ./ of_Z 12) (var_r ./ of_Z 12)
            overpay extra_map recalc out
            (match k with
             | O => pmt0
             | S k' => default zero (sched out !! k')
             end) k (Z.of_nat k + 1))
    /\ (forall k b, (0 < k < n)%nat -> balances out !! k = Some b ->
          (b .<= zero) = false)
    /\ ((n < Z.to_nat term_m)%nat ->
        exists b, balances out !! n = Some b /\ (b .<= zero) = true).
Proof.
  unfold _amortize. cbv zeta. intros H. bind_inv H. rename x into pmt0.
  eapply (amortize_loop_ledger _ _ _ _ _ _ _ _ _ _ _ _ 0%nat) in H
    as (r & Hr & Hr1 & Hsh & Hext & Hrows & Hpos & Hearly);
    [| repeat split | reflexivity].
  rewrite length_seqZ in Hr, Hearly. cbn [Nat.add] in *.
  exists r, pmt0.
  split; [exact Hx|]. split; [exact Hr|].
  split.
  { intros Ht. apply Hr1. destruct (seqZ 1 term_m) eqn:E; [|discriminate].
    apply (f_equal length) in E. rewrite length_seqZ in E. cbn in E. lia. }
  split; [exact Hsh|].
  split.
  { destruct Hext as (E1 & _). cbn [balances] in E1.
    eapply prefix_lookup_Some; [|exact E1]. reflexivity. }
  split.
  { intros k Hk. apply Hrows; [exact Hk|].
    rewrite lookup_seqZ. split; lia. }
  split; [exact Hpos | exact Hearly].
Qed.

(** X4.  [_amortize] makes at most [term_m] payments and at least one when
    the term is positive; its five lists have the lengths [n + 1], [n],
    [n], [n], [n]; the first balance is the principal; no balance strictly
    between the first and the last is [<= 0]; and when fewer than [term_m]
    payments were made, the last balance is [<= 0]: the loop stops at the
    first month that clears the loan. *)
Theorem amortize_stops_at_the_first_cleared_balance
    (P : num) (term_m fixed_m : Z)
    (fixed_r var_r overpay : num) (extra_map : gmap Z num) (recalc : bool)
    (out : schedule) :
  _amortize P term_m fixed_m fixed_r var_r overpay extra_map recalc = Ok out ->
  exists n : nat,
    (n <= Z.to_nat term_m)%nat
    /\ (0 < term_m -> (1 <= n)%nat)
    /\ length (balances out) = S n
    /\ length (sched out) = n /\ length (totalp out) = n
    /\ length (interest out) = n /\ length (principal_paid out) = n
    /\ balances out !! 0%nat = Some P
    /\ (forall k b, (0 < k < n)%nat -> balances out !! k = Some b ->
          (b .<= zero) = false)
    /\ ((n < Z.to_nat term_m)%nat ->
        exists b, balances out !! n = Some b /\ (b .<= zero) = true).
Proof.
  intros H.
  apply amortize_ledger in H
    as (n & pmt0 & _ & Hn & Hn1 & (S1 & S2 & S3 & S4 & S5) & H0 & _ & Hpos & He).
  exists n. repeat split; assumption.
Qed.

(** X5.  Row [k] of the lists [_amortize] returns is month [k + 1] of the
    loan: the interest is the balance times the month's rate (the fixed
    one up to [fixed_m], the variable one after), the total payment is the
    scheduled payment plus the overpayment plus the month's lump sum, the
    principal paid is the total payment minus the interest, and the next
    balance is balance plus interest minus total payment, set to zero when
    it lies in (-1e-6, 0).  The scheduled payment is the one of the month
    before (the initial annuity in the first month), recomputed by [_pmt]
    on the balance and the months left only in month [fixed_m + 1] when
    [recalc_on_change] is set. *)
Theorem amortize_rows_follow_the_ledger
    (P : num) (term_m fixed_m : Z)
    (fixed_r var_r overpay : num) (extra_map : gmap Z num) (recalc : bool)
    (out : schedule) :
  _amortize P term_m fixed_m fixed_r var_r overpay extra_map recalc = Ok out ->
  exists pmt0 : num,
    _pmt P (fixed_r ./ of_Z 12) term_m = Ok pmt0
    /\ forall k, (k < length (sched out))%nat ->
         ledger_row term_m fixed_m (fixed_r ./ of_Z 12) (var_r ./ of_Z 12)
           overpay extra_map recalc out
           (match k with
            | O => pmt0
            | S k' => default zero (sched out !! k')
            end) k (Z.of_nat k + 1).
Proof.
  intros H.
  apply amortize_ledger in H
    as (n & pmt0 & Hp & _ & _ & (_ & S2 & _) & _ & Hrows & _).
  exists pmt0. split; [exact Hp|]. rewrite S2. exact Hrows.
Qed.

End LedgerFacts.

(** ** The [/mortgage] response *)

Section ResponseFacts.
Context {num : Type} {arith : Arith num} {libm : Libm num}.
Import Mortgage.

Lemma pad_Ok (arr : list num) (L : Z) :
  arr <> [] \/ L <= Z.of_nat (length arr) ->
  exists arr', _pad arr L = Ok arr'.
Proof.
  intros H. unfold _pad. cbv zeta.
  destruct (L <=? Z.of_nat (length arr)) eqn:E; [eexists; reflexivity|].
  apply Z.leb_gt in E. destruct H as [H|H]; [|lia].
  rewrite (py_index_last arr H). cbn. eexists. reflexivity.
Qed.

Lemma pad_length (arr arr' : list num) (L : Z) :
  0 <= L -> _pad arr L = Ok arr' -> length arr' = Z.to_nat L.
Proof.
  intros HL. unfold _pad. cbv zeta.
  destruct (L <=? Z.of_nat (length arr)) eqn:E.
  - apply Z.leb_le in E. intros H. injection H as <-.
    destruct (L <? 0) eqn:E'; [apply Z.ltb_lt in E'; lia|].
    rewrite length_take. lia.
  - apply Z.leb_gt in E. intros H. bind_inv H. injection H as <-.
    rewrite length_app, length_replicate. lia.
Qed.

Lemma pad_full (arr : list num) : _pad arr (Z.of_nat (length arr)) = Ok arr.
Proof.
  unfold _pad. cbv zeta. rewrite Z.leb_refl.
  destruct (Z.of_nat (length arr) <? 0) eqn:E; [apply Z.ltb_lt in E; lia|].
  rewrite Nat2Z.id, firstn_all. reflexivity.
Qed.

Lemma pad_extends (arr arr' : list num) (L : Z) :
  Z.of_nat (length arr) <= L -> _pad arr L = Ok arr' ->
  arr' = arr ++ replicate (Z.to_nat L - length arr) (List.last arr zero).
Proof.
  intros HL. unfold _pad. cbv zeta.
  destruct (L <=? Z.of_nat (length arr)) eqn:E.
  - apply Z.leb_le in E. assert (L = Z.of_nat (length arr)) as -> by lia.
    destruct (Z.of_nat (length arr) <? 0) eqn:E'; [apply Z.ltb_lt in E'; lia|].
    intros H. injection H as <-.
    rewrite Nat2Z.id, firstn_all, Nat.sub_diag. cbn. rewrite app_nil_r.
    reflexivity.
  - apply Z.leb_gt in E. intros H. bind_inv H. injection H as <-.
    pose proof (py_index_Ok_nonempty _ _ _ Hx) as Hne.
    rewrite (py_index_last arr Hne) in Hx. injection Hx as <-.
    f_equal. f_equal. lia.
Qed.

Lemma pad_raises (arr : list num) (L : Z) (e : exn) :
  _pad arr L = Raise e -> arr = [] /\ Z.of_nat (length arr) < L.
Proof.
  intros H. destruct arr as [|a arr]; [split; [reflexivity|]|].
  - unfold _pad in H. cbv zeta in H.
    destruct (L <=? Z.of_nat (length (@nil num))) eqn:E; [discriminate H|].
    apply Z.leb_gt in E. exact E.
  - destruct (pad_Ok (a :: arr) L) as (arr' & Hp); [left; discriminate|].
    rewrite Hp in H. discriminate H.
Qed.

(** *** Exceptions *)









(** *** The steps of a successful [mortgage] *)

Lemma mortgage_Ok_inv (today : date) (req : MortgageRequest)
    (resp : MortgageResponse) :
  mortgage today req = Ok resp ->
  exists (main base : schedule) (labels : list date)
         (balances' baseline sched' totalp' intr princ : list num)
         (ending : num) (payoff_d base_d : date),
    let term_m := term_years req * 12 in
    let d := Z.max 0 (decimals req) in
    let start_d := default today (start_date req) in
    let L := Z.max (Z.of_nat (length (balances main)))
                   (Z.of_nat (length (balances base))) in
    _amortize (principal req) term_m (fixed_years req * 12) (fixed_rate req)
      (variable_rate req) (monthly_overpayment req)
      (build_extra_map term_m (extra_payments req))
      (recalc_on_rate_change req) = Ok main
    /\ _amortize (principal req) term_m (fixed_years req * 12) (fixed_rate req)
         (variable_rate req) zero ∅ (recalc_on_rate_change req) = Ok base
    /\ traverse (add_months start_d) (seqZ 0 L) = Ok labels
    /\ _pad (balances main) L = Ok balances'
    /\ _pad (balances base) L = Ok baseline
    /\ _pad (sched main) (L - 1) = Ok sched'
    /\ _pad (totalp main) (L - 1) = Ok totalp'
    /\ _pad (interest main) (L - 1) = Ok intr
    /\ _pad (principal_paid main) (L - 1) = Ok princ
    /\ py_index balances' (-1) = Ok ending
    /\ add_months start_d (_payoff_month balances') = Ok payoff_d
    /\ add_months start_d (_payoff_month (balances base)) = Ok base_d
    /\ resp =
       {| r_labels := labels;
          r_balance := round_list balances' d;
          r_baseline_balance := round_list baseline d;
          r_schedule_payment := round_list (zero :: sched') d;
          r_total_payment := round_list (zero :: totalp') d;
          r_interest := round_list (zero :: intr) d;
          r_principal := round_list (zero :: princ) d;
          r_summary :=
            {| payoff_months := _payoff_month balances';
               payoff_date := payoff_d;
               baseline_payoff_months := _payoff_month (balances base);
               baseline_payoff_date := base_d;
               total_interest := round_float (np_sum intr) d;
               baseline_total_interest :=
                 round_float (np_sum (interest base)) d;
               interest_saved :=
                 round_float
                   (py_max zero (np_sum (interest base) .- np_sum intr)) d;
               months_saved :=
                 Z.max 0 (_payoff_month (balances base)
                          - _payoff_month balances');
               ending_balance := round_float ending d;
               is_balloon := zero .< ending;
               fixed_months := fixed_years req * 12 |} |}.
Proof.
  unfold mortgage. cbv zeta. intros H.
  bind_inv H. rename x into main, Hx into Hmain.
  bind_inv H. rename x into base, Hx into Hbase.
  bind_inv H. rename x into labels, Hx into Hlabels.
  bind_inv H. rename x into balances', Hx into Hb.
  bind_inv H. rename x into baseline, Hx into Hbb.
  bind_inv H. rename x into sched', Hx into Hs.
  bind_inv H. rename x into totalp', Hx into Ht.
  bind_inv H. rename x into intr, Hx into Hi.
  bind_inv H. rename x into princ, Hx into Hp.
  bind_inv H. rename x into ending, Hx into He.
  bind_inv H. rename x into payoff_d, Hx into Hpd.
  bind_inv H. rename x into base_d, Hx into Hbd.
  injection H as <-.
  exists main, base, labels, balances', baseline, sched', totalp', intr, princ,
         ending, payoff_d, base_d.
  cbv zeta. repeat (split; [assumption|]). reflexivity.
Qed.

Lemma length_round_list (xs : list num) (d : Z) :
  length (round_list xs d) = length xs.
Proof. unfold round_list. apply length_map. Qed.

(** X6.  In every response the six series run over the same periods as
    the labels: [balance], [baseline_balance], [schedule_payment],
    [total_payment], [interest] and [principal] all have the length of
    [labels], which is at least 1 and at most [term_m + 1]; the four
    monthly series open with the rounding of 0.0, the two balances with
    the rounded principal. *)
Theorem mortgage_series_align_with_the_labels
    (today : date) (req : MortgageRequest) (resp : MortgageResponse) :
  mortgage today req = Ok resp ->
  let n := length (r_labels resp) in
  let d := Z.max 0 (decimals req) in
  (1 <= n <= S (Z.to_nat (term_years req * 12)))%nat
  /\ length (r_balance resp) = n
  /\ length (r_baseline_balance resp) = n
  /\ length (r_schedule_payment resp) = n
  /\ length (r_total_payment resp) = n
  /\ length (r_interest resp) = n
  /\ length (r_principal resp) = n
  /\ r_balance resp !! 0%nat = Some (np_round d (principal req))
  /\ r_baseline_balance resp !! 0%nat = Some (np_round d (principal req))
  /\ r_schedule_payment resp !! 0%nat = Some (np_round d zero)
  /\ r_total_payment resp !! 0%nat = Some (np_round d zero)
  /\ r_interest resp !! 0%nat = Some (np_round d zero)
  /\ r_principal resp !! 0%nat = Some (np_round d zero).
Proof.
  intros H.
  apply mortgage_Ok_inv in H
    as (main & base & labels & balances' & baseline & sched' & totalp' & intr
        & princ & ending & payoff_d & base_d & Hmain & Hbase & Hlabels & Hb
        & Hbb & Hs & Ht & Hi & Hp & He & Hpd & Hbd & ->).
  cbn [r_labels r_balance r_baseline_balance r_schedule_payment
       r_total_payment r_interest r_principal].
  apply amortize_ledger in Hmain
    as (n1 & p1 & _ & Hn1 & _ & (M1 & M2 & M3 & M4 & M5) & M0 & _).
  apply amortize_ledger in Hbase
    as (n2 & p2 & _ & Hn2 & _ & (B1 & B2 & B3 & B4 & B5) & B0 & _).
  rewrite M1, B1 in *.
  set (L := Z.max (Z.of_nat (S n1)) (Z.of_nat (S n2))) in *.
  apply traverse_length in Hlabels. rewrite length_seqZ in Hlabels.
  assert (Eb := pad_extends (balances main) balances' L
                  ltac:(rewrite M1; unfold L; lia) Hb).
  assert (Ebb := pad_extends (balances base) baseline L
                   ltac:(rewrite B1; unfold L; lia) Hbb).
  apply pad_length in Hb, Hbb, Hs, Ht, Hi, Hp; try (unfold L; lia).
  cbv zeta. rewrite !length_round_list. cbn [length].
  rewrite Hlabels, Hb, Hbb, Hs, Ht, Hi, Hp.
  split; [lia|]. do 6 (split; [lia|]).
  unfold round_list.
  split.
  { rewrite list_lookup_fmap, Eb, lookup_app_l by (rewrite M1; lia).
    rewrite M0. reflexivity. }
  split.
  { rewrite list_lookup_fmap, Ebb, lookup_app_l by (rewrite B1; lia).
    rewrite B0. reflexivity. }
  repeat split.
Qed.


(** *** The payoff month *)

Lemma first_paid_app (l1 l2 : list num) (i : Z) :
  first_paid (l1 ++ l2) i =
    match first_paid l1 i with
    | Some j => Some j
    | None => first_paid l2 (i + Z.of_nat (length l1))
    end.
Proof.
  revert i. induction l1 as [|v l1 IH]; intros i.
  - cbn. rewrite Z.add_0_r. reflexivity.
  - cbn [app first_paid length]. destruct (v .<= zero); [reflexivity|].
    rewrite IH. replace (i + 1 + Z.of_nat (length l1))
      with (i + Z.of_nat (S (length l1))) by lia.
    reflexivity.
Qed.

Lemma payoff_month_of_schedule (bals : list num) (n p : nat) (last : num) :
  length bals = S n ->
  (forall k v, (k < n)%nat -> bals !! k = Some v -> (v .<= zero) = false) ->
  bals !! n = Some last ->
  ((last .<= zero) = false -> p = 0%nat) ->
  _payoff_month (bals ++ replicate p last) = Z.of_nat n.
Proof.
  intros Hlen Hpos Hlast Hp.
  assert (Hsplit : bals = take n bals ++ [last]).
  { rewrite <- (take_drop n bals) at 1. f_equal.
    apply list_eq. intros i. rewrite lookup_drop.
    destruct i as [|i]; cbn.
    - rewrite Nat.add_0_r. exact Hlast.
    - apply lookup_ge_None. lia. }
  assert (Hnone : first_paid (take n bals) 0 = None).
  { apply first_paid_unpaid. intros v Hv.
    apply list_elem_of_lookup in Hv as (k & Hk).
    pose proof (lookup_lt_Some _ _ _ Hk) as Hlt. rewrite length_take in Hlt.
    rewrite lookup_take_lt in Hk by lia. apply (Hpos k v); [lia | exact Hk]. }
  unfold _payoff_month. rewrite length_app, length_replicate, Hlen.
  rewrite Hsplit at 1. rewrite <- app_assoc, first_paid_app, Hnone.
  rewrite length_take, Hlen. replace (n `min` S n)%nat with n by lia.
  cbn [app first_paid]. destruct (last .<= zero) eqn:E.
  - cbn. lia.
  - rewrite (Hp eq_refl). cbn. lia.
Qed.

Lemma payoff_month_cleared_at_once (bals : list num) (P : num) :
  bals !! 0%nat = Some P -> (P .<= zero) = true -> _payoff_month bals = 0.
Proof.
  intros H0 HP. destruct bals as [|v bals]; [discriminate H0|].
  cbn in H0. injection H0 as ->.
  unfold _payoff_month. cbn [first_paid]. rewrite HP. reflexivity.
Qed.

Lemma last_lookup_length (l : list num) (n : nat) (v : num) :
  length l = S n -> l !! n = Some v -> List.last l zero = v.
Proof.
  intros Hlen Hv. rewrite <- nth_pred_length_last by (destruct l; discriminate).
  rewrite Hlen. replace (S n - 1)%nat with n by lia.
  apply nth_lookup_Some with (d := zero) in Hv. exact Hv.
Qed.

(** X7.  With a principal that is not [<= 0], [payoff_months] is the
    number of payments of the schedule and [baseline_payoff_months] the
    number of payments of the baseline (the schedule without overpayment
    and lump sums), whether the loan clears early, at the term, or not at
    all; with a principal [<= 0] both are 0.  [months_saved] is their
    difference, floored at 0, and the two payoff dates are the labels at
    the two payoff months. *)
Theorem payoff_months_count_the_payments
    (today : date) (req : MortgageRequest) (resp : MortgageResponse) :
  mortgage today req = Ok resp ->
  exists main base : schedule,
    _amortize (principal req) (term_years req * 12) (fixed_years req * 12)
      (fixed_rate req) (variable_rate req) (monthly_overpayment req)
      (build_extra_map (term_years req * 12) (extra_payments req))
      (recalc_on_rate_change req) = Ok main
    /\ _amortize (principal req) (term_years req * 12) (fixed_years req * 12)
         (fixed_rate req) (variable_rate req) zero ∅
         (recalc_on_rate_change req) = Ok base
    /\ (if principal req .<= zero
        then payoff_months (r_summary resp) = 0
             /\ baseline_payoff_months (r_summary resp) = 0
        else payoff_months (r_summary resp) = Z.of_nat (length (sched main))
             /\ baseline_payoff_months (r_summary resp)
                = Z.of_nat (length (sched base)))
    /\ months_saved (r_summary resp)
       = Z.max 0 (baseline_payoff_months (r_summary resp)
                  - payoff_months (r_summary resp))
    /\ r_labels resp !! Z.to_nat (payoff_months (r_summary resp))
       = Some (payoff_date (r_summary resp))
    /\ r_labels resp !! Z.to_nat (baseline_payoff_months (r_summary resp))
       = Some (baseline_payoff_date (r_summary resp)).
Proof.
  intros H.
  apply mortgage_Ok_inv in H
    as (main & base & labels & balances' & baseline & sched' & totalp' & intr
        & princ & ending & payoff_d & base_d & Hmain & Hbase & Hlabels & Hb
        & Hbb & Hs & Ht & Hi & Hp & He & Hpd & Hbd & ->).
  exists main, base. split; [exact Hmain|]. split; [exact Hbase|].
  cbn [r_summary r_labels payoff_months baseline_payoff_months months_saved
       payoff_date baseline_payoff_date].
  apply amortize_ledger in Hmain
    as (n1 & p1 & _ & Hn1 & _ & (M1 & M2 & M3 & M4 & M5) & M0 & _ & Mpos & Mearly).
  apply amortize_ledger in Hbase
    as (n2 & p2 & _ & Hn2 & _ & (B1 & B2 & B3 & B4 & B5) & B0 & _ & Bpos & Bearly).
  assert (Eb := pad_extends (balances main) balances'
                  (Z.max (Z.of_nat (length (balances main)))
                         (Z.of_nat (length (balances base))))
                  ltac:(lia) Hb).
  rewrite M2, B2.
  assert (Hoff : _payoff_month balances'
                 = if principal req .<= zero then 0 else Z.of_nat n1).
  { destruct (principal req .<= zero) eqn:HP.
    - apply (payoff_month_cleared_at_once _ (principal req)); [|exact HP].
      rewrite Eb. rewrite lookup_app_l by (rewrite M1; lia). exact M0.
    - destruct (lookup_lt_is_Some_2 (balances main) n1 ltac:(lia)) as (lastb & Hl).
      rewrite Eb, (last_lookup_length _ n1 lastb M1 Hl).
      apply payoff_month_of_schedule; [exact M1| |exact Hl|].
      + intros k v Hk Hv. destruct k as [|k].
        * rewrite M0 in Hv. injection Hv as <-. exact HP.
        * apply (Mpos (S k) v); [lia | exact Hv].
      + intros Hlast. rewrite M1, B1.
        destruct (decide (n1 < Z.to_nat (term_years req * 12))%nat) as [Hlt|Hge].
        * destruct (Mearly Hlt) as (b & Hb' & Hb0).
          rewrite Hl in Hb'. injection Hb' as <-. congruence.
        * lia. }
  assert (Hbase_m : _payoff_month (balances base)
                    = if principal req .<= zero then 0 else Z.of_nat n2).
  { destruct (principal req .<= zero) eqn:HP.
    - apply (payoff_month_cleared_at_once _ (principal req)); [exact B0 | exact HP].
    - destruct (lookup_lt_is_Some_2 (balances base) n2 ltac:(lia)) as (lastb & Hl).
      rewrite <- (app_nil_r (balances base)).
      change (@nil num) with (replicate 0 lastb).
      apply payoff_month_of_schedule; [exact B1| |exact Hl|reflexivity].
      intros k v Hk Hv. destruct k as [|k].
      + rewrite B0 in Hv. injection Hv as <-. exact HP.
      + apply (Bpos (S k) v); [lia | exact Hv]. }
  rewrite Hoff, Hbase_m in *.
  split; [destruct (principal req .<= zero); split; reflexivity|].
  split; [reflexivity|].
  rewrite M1, B1 in Hlabels.
  assert (Hlab : forall m d',
             0 <= m < Z.max (Z.of_nat (S n1)) (Z.of_nat (S n2)) ->
             add_months (default today (start_date req)) m = Ok d' ->
             labels !! Z.to_nat m = Some d').
  { intros m d' Hm Hd.
    destruct (traverse_lookup _ _ _ (Z.to_nat m) m Hlabels) as (b & Hb1 & Hb2).
    - rewrite lookup_seqZ. split; lia.
    - rewrite Hd in Hb2. injection Hb2 as <-. exact Hb1. }
  split; apply Hlab; try assumption;
    destruct (principal req .<= zero); lia.
Qed.


(** *** Without overpayments *)

Lemma build_extra_map_out_of_range (term_m : Z) (eps : list ExtraPayment) :
  Forall (fun ep => ~ (1 <= ep_year ep * 12 + ep_month ep + 1 <= term_m)) eps ->
  build_extra_map term_m (Some eps) = ∅.
Proof.
  unfold build_extra_map. generalize (∅ : gmap Z num).
  induction eps as [|ep eps IH]; intros mp Hall; [reflexivity|].
  apply Forall_cons in Hall as [Hep Hall].
  cbn [fold_left]. rewrite (add_extra_out_of_range _ _ _ Hep).
  apply IH. exact Hall.
Qed.

(** X8.  A request with a zero monthly overpayment and no extra payment
    inside the term gets its own baseline back: the balance series is the
    baseline series, the payoff month and date are the baseline ones, the
    total interest is the baseline total interest, and no month is
    saved. *)
Theorem without_overpayment_the_schedule_is_the_baseline
    (today : date) (req : MortgageRequest) (resp : MortgageResponse) :
  monthly_overpayment req = zero ->
  Forall (fun ep => ~ (1 <= ep_year ep * 12 + ep_month ep + 1
                       <= term_years req * 12))
         (default [] (extra_payments req)) ->
  mortgage today req = Ok resp ->
  r_balance resp = r_baseline_balance resp
  /\ payoff_months (r_summary resp) = baseline_payoff_months (r_summary resp)
  /\ payoff_date (r_summary resp) = baseline_payoff_date (r_summary resp)
  /\ total_interest (r_summary resp) = baseline_total_interest (r_summary resp)
  /\ months_saved (r_summary resp) = 0.
Proof.
  intros Hover Hextra H.
  assert (Hmap : build_extra_map (term_years req * 12) (extra_payments req) = ∅).
  { destruct (extra_payments req) as [eps|]; [|reflexivity].
    apply build_extra_map_out_of_range. exact Hextra. }
  apply mortgage_Ok_inv in H
    as (main & base & labels & balances' & baseline & sched' & totalp' & intr
        & princ & ending & payoff_d & base_d & Hmain & Hbase & Hlabels & Hb
        & Hbb & Hs & Ht & Hi & Hp & He & Hpd & Hbd & ->).
  rewrite Hover, Hmap, Hbase in Hmain. injection Hmain as <-.
  rewrite Z.max_id in *.
  rewrite pad_full in Hb, Hbb. injection Hb as <-. injection Hbb as <-.
  apply amortize_ledger in Hbase
    as (n & p0 & _ & _ & _ & (B1 & B2 & B3 & B4 & B5) & _).
  assert (HL : Z.of_nat (length (balances base)) - 1
               = Z.of_nat (length (interest base))) by (rewrite B1, B4; lia).
  rewrite HL, pad_full in Hi. injection Hi as <-.
  rewrite Hpd in Hbd. injection Hbd as <-.
  cbn [r_balance r_baseline_balance r_summary payoff_months
       baseline_payoff_months payoff_date baseline_payoff_date
       total_interest baseline_total_interest months_saved].
  repeat split. lia.
Qed.

(** *** The exceptions of the endpoint *)



End ResponseFacts.

(** *** The statements above at concrete loans *)

Lemma amortize_stops_witness :
  exists out : Mortgage.schedule,
    Mortgage._amortize (libm := Sample.float_libm) (Binary64.Z2f 1200) 12 12
      zero zero (Binary64.Z2f 100) ∅ true = Ok out
    /\ exists n : nat,
         (n <= Z.to_nat 12)%nat
         /\ (0 < 12 -> (1 <= n)%nat)
         /\ length (Mortgage.balances out) = S n
         /\ length (Mortgage.sched out) = n
         /\ length (Mortgage.totalp out) = n
         /\ length (Mortgage.interest out) = n
         /\ length (Mortgage.principal_paid out) = n
         /\ Mortgage.balances out !! 0%nat = Some (Binary64.Z2f 1200)
         /\ (forall k b, (0 < k < n)%nat ->
               Mortgage.balances out !! k = Some b -> (b .<= zero) = false)
         /\ ((n < Z.to_nat 12)%nat ->
             exists b, Mortgage.balances out !! n = Some b
                       /\ (b .<= zero) = true).
Proof.
  eexists. split; [vm_compute; reflexivity|].
  apply (amortize_stops_at_the_first_cleared_balance
           (libm := Sample.float_libm) (Binary64.Z2f 1200) 12 12
           zero zero (Binary64.Z2f 100) ∅ true).
  vm_compute. reflexivity.
Defined.

Lemma amortize_rows_witness :
  exists out : Mortgage.schedule,
    Mortgage._amortize (libm := Sample.float_libm) (Binary64.Z2f 1200) 12 12
      zero zero (Binary64.Z2f 100) ∅ true = Ok out
    /\ length (Mortgage.sched out) = 6%nat
    /\ exists pmt0 : float,
         Mortgage._pmt (libm := Sample.float_libm)
           (Binary64.Z2f 1200) (zero ./ of_Z 12) 12 = Ok pmt0
         /\ forall k, (k < length (Mortgage.sched out))%nat ->
              ledger_row (libm := Sample.float_libm) 12 12
                (zero ./ of_Z 12) (zero ./ of_Z 12)
                (Binary64.Z2f 100) ∅ true out
                (match k with
                 | O => pmt0
                 | S k' => default zero (Mortgage.sched out !! k')
                 end) k (Z.of_nat k + 1).
Proof.
  eexists. split; [vm_compute; reflexivity|]. split; [reflexivity|].
  apply (amortize_rows_follow_the_ledger
           (libm := Sample.float_libm) (Binary64.Z2f 1200) 12 12
           zero zero (Binary64.Z2f 100) ∅ true).
  vm_compute. reflexivity.
Defined.

Lemma mortgage_series_witness :
  exists resp : Mortgage.MortgageResponse,
    Mortgage.mortgage (libm := Sample.float_libm) (Date 2024 1 31)
      overpaid_request = Ok resp
    /\ length (Mortgage.r_labels resp) = 13%nat
    /\ let n := length (Mortgage.r_labels resp) in
       let d := Z.max 0 (Mortgage.decimals overpaid_request) in
       (1 <= n <= S (Z.to_nat (Mortgage.term_years overpaid_request * 12)))%nat
       /\ length (Mortgage.r_balance resp) = n
       /\ length (Mortgage.r_baseline_balance resp) = n
       /\ length (Mortgage.r_schedule_payment resp) = n
       /\ length (Mortgage.r_total_payment resp) = n
       /\ length (Mortgage.r_interest resp) = n
       /\ length (Mortgage.r_principal resp) = n
       /\ Mortgage.r_balance resp !! 0%nat
          = Some (np_round d (Mortgage.principal overpaid_request))
       /\ Mortgage.r_baseline_balance resp !! 0%nat
          = Some (np_round d (Mortgage.principal overpaid_request))
       /\ Mortgage.r_schedule_payment resp !! 0%nat = Some (np_round d zero)
       /\ Mortgage.r_total_payment resp !! 0%nat = Some (np_round d zero)
       /\ Mortgage.r_interest resp !! 0%nat = Some (np_round d zero)
       /\ Mortgage.r_principal resp !! 0%nat = Some (np_round d zero).
Proof.
  eexists. split; [vm_compute; reflexivity|]. split; [reflexivity|].
  apply (mortgage_series_align_with_the_labels
           (libm := Sample.float_libm) (Date 2024 1 31) overpaid_request).
  vm_compute. reflexivity.
Defined.

Lemma payoff_months_witness :
  exists resp : Mortgage.MortgageResponse,
    Mortgage.mortgage (libm := Sample.float_libm) (Date 2024 1 31)
      overpaid_request = Ok resp
    /\ Mortgage.payoff_months (Mortgage.r_summary resp) = 6
    /\ Mortgage.baseline_payoff_months (Mortgage.r_summary resp) = 12
    /\ Mortgage.months_saved (Mortgage.r_summary resp) = 6
    /\ Mortgage.payoff_date (Mortgage.r_summary resp) = Date 2024 7 31
    /\ exists main base : Mortgage.schedule,
         Mortgage._amortize (libm := Sample.float_libm)
           (Mortgage.principal overpaid_request)
           (Mortgage.term_years overpaid_request * 12)
           (Mortgage.fixed_years overpaid_request * 12)
           (Mortgage.fixed_rate overpaid_request)
           (Mortgage.variable_rate overpaid_request)
           (Mortgage.monthly_overpayment overpaid_request)
           (Mortgage.build_extra_map
              (Mortgage.term_years overpaid_request * 12)
              (Mortgage.extra_payments overpaid_request))
           (Mortgage.recalc_on_rate_change overpaid_request) = Ok main
         /\ Mortgage._amortize (libm := Sample.float_libm)
              (Mortgage.principal overpaid_request)
              (Mortgage.term_years overpaid_request * 12)
              (Mortgage.fixed_years overpaid_request * 12)
              (Mortgage.fixed_rate overpaid_request)
              (Mortgage.variable_rate overpaid_request) zero ∅
              (Mortgage.recalc_on_rate_change overpaid_request) = Ok base
         /\ (if Mortgage.principal overpaid_request .<= zero
             then Mortgage.payoff_months (Mortgage.r_summary resp) = 0
                  /\ Mortgage.baseline_payoff_months (Mortgage.r_summary resp) = 0
             else Mortgage.payoff_months (Mortgage.r_summary resp)
                  = Z.of_nat (length (Mortgage.sched main))
                  /\ Mortgage.baseline_payoff_months (Mortgage.r_summary resp)
                     = Z.of_nat (length (Mortgage.sched base)))
         /\ Mortgage.months_saved (Mortgage.r_summary resp)
            = Z.max 0 (Mortgage.baseline_payoff_months (Mortgage.r_summary resp)
                       - Mortgage.payoff_months (Mortgage.r_summary resp))
         /\ Mortgage.r_labels resp
              !! Z.to_nat (Mortgage.payoff_months (Mortgage.r_summary resp))
            = Some (Mortgage.payoff_date (Mortgage.r_summary resp))
         /\ Mortgage.r_labels resp
              !! Z.to_nat (Mortgage.baseline_payoff_months (Mortgage.r_summary resp))
            = Some (Mortgage.baseline_payoff_date (Mortgage.r_summary resp)).
Proof.
  eexists. split; [vm_compute; reflexivity|].
  do 4 (split; [reflexivity|]).
  apply (payoff_months_count_the_payments
           (libm := Sample.float_libm) (Date 2024 1 31) overpaid_request).
  vm_compute. reflexivity.
Defined.

Lemma without_overpayment_witness :
  exists resp : Mortgage.MortgageResponse,
    Mortgage.mortgage (libm := Sample.float_libm) (Date 2024 1 31)
      balloon_request = Ok resp
    /\ Mortgage.r_balance resp = Mortgage.r_baseline_balance resp
    /\ Mortgage.payoff_months (Mortgage.r_summary resp)
       = Mortgage.baseline_payoff_months (Mortgage.r_summary resp)
    /\ Mortgage.payoff_date (Mortgage.r_summary resp)
       = Mortgage.baseline_payoff_date (Mortgage.r_summary resp)
    /\ Mortgage.total_interest (Mortgage.r_summary resp)
       = Mortgage.baseline_total_interest (Mortgage.r_summary resp)
    /\ Mortgage.months_saved (Mortgage.r_summary resp) = 0.
Proof.
  eexists. split; [vm_compute; reflexivity|].
  apply (without_overpayment_the_schedule_is_the_baseline
           (libm := Sample.float_libm) (Date 2024 1 31) balloon_request).
  - reflexivity.
  - apply Forall_nil_2.
  - vm_compute. reflexivity.
Defined.


(** ** The contribution schedule of the compound calculator *)

Section ContributionFacts.
Context {num : Type} {arith : Arith num} {libm : Libm num} {rng : Rng num}.

Lemma lookup_flat_map_replicate {A B : Type} (h : A -> B) (n : nat)
    (l : list A) :
  forall t : nat,
    (0 < n)%nat ->
    flat_map (fun c => replicate n (h c)) l !! t = h <$> l !! (t / n)%nat.
Proof.
  induction l as [|c l IH]; intros t Hn.
  - cbn. rewrite !lookup_nil. reflexivity.
  - cbn [flat_map]. destruct (decide (t < n)%nat) as [Hlt|Hge].
    + rewrite lookup_app_l by (rewrite length_replicate; lia).
      rewrite Nat.div_small by lia. cbn.
      apply lookup_replicate_2. lia.
    + rewrite lookup_app_r by (rewrite length_replicate; lia).
      rewrite length_replicate, IH by lia.
      replace (t / n)%nat with (S ((t - n) / n)).
      * reflexivity.
      * replace t with ((t - n) + 1 * n)%nat at 2 by lia.
        rewrite Nat.div_add by lia. lia.
Qed.

Lemma length_flat_map_replicate {A B : Type} (h : A -> B) (n : nat)
    (l : list A) :
  length (flat_map (fun c => replicate n (h c)) l) = (length l * n)%nat.
Proof.
  induction l as [|c l IH]; [reflexivity|].
  cbn [flat_map length]. rewrite length_app, length_replicate, IH. lia.
Qed.

(** X10.  The contribution schedule of the compound calculator has
    [years * frequency] entries, and the entry of period [t] is
    [annual_contribution * (1 + contribution_growth) ** (t // frequency)
    / frequency]: the amount steps once every [frequency] periods, with
    the request's own frequency. *)
Theorem compound_contributions_step_every_frequency
    (req : Compound.SimRequest) (s : list num) :
  Compound.contrib_schedule req = Ok s ->
  length s = (Z.to_nat (Compound.years req)
              * Z.to_nat (Compound.frequency req))%nat
  /\ forall t : nat, (t < length s)%nat ->
       exists p : num,
         py_pow (one .+ Compound.contribution_growth req)
                (of_Z (Z.of_nat t / Compound.frequency req)) = Ok p
         /\ s !! t = Some (Compound.annual_contribution req .* p
                           ./ of_Z (Compound.frequency req)).
Proof.
  unfold Compound.contrib_schedule. intros H. bind_inv H.
  rename x into per_year, Hx into Hper.
  destruct (Compound.frequency req <? 0) eqn:Hf; [discriminate H|].
  apply Z.ltb_ge in Hf. injection H as <-.
  pose proof (traverse_length _ _ _ Hper) as Hlen.
  rewrite length_seqZ in Hlen.
  rewrite length_flat_map_replicate, Hlen.
  split; [reflexivity|].
  intros t Ht.
  assert (Hn : (0 < Z.to_nat (Compound.frequency req))%nat) by nia.
  rewrite (lookup_flat_map_replicate
             (fun c => c ./ of_Z (Compound.frequency req))) by exact Hn.
  assert (Hq : (t / Z.to_nat (Compound.frequency req)
                < Z.to_nat (Compound.years req))%nat).
  { apply Nat.Div0.div_lt_upper_bound. lia. }
  destruct (lookup_lt_is_Some_2 per_year _ ltac:(rewrite Hlen; exact Hq))
    as (c & Hc).
  destruct (traverse_lookup_inv _ _ _ _ _ Hper Hc) as (y & Hy & Hfy).
  apply lookup_seqZ in Hy as [-> _].
  bind_inv Hfy. injection Hfy as <-. rename x into p.
  exists p. split.
  - rewrite <- Hx. f_equal. f_equal.
    rewrite Nat2Z.inj_div, Z2Nat.id by lia. lia.
  - rewrite Hc. reflexivity.
Qed.

End ContributionFacts.

(** ** The schedules and the longevity scan of the FIRE calculator *)

Section FireScheduleFacts.
Context {num : Type} {arith : Arith num} {libm : Libm num} {rng : Rng num}.

Lemma stepped_next (infl : num) (k : Z) (amount : num) :
  0 <= k ->
  stepped infl (k + 1) amount = stepped infl k amount .* (one .+ infl).
Proof.
  intros Hk. unfold stepped.
  replace (Z.to_nat (k + 1)) with (S (Z.to_nat k)) by lia.
  rewrite Nat.iter_succ. reflexivity.
Qed.

Lemma schedule_loop_closed (infl : num) (origin : Z) (base : num) (len : nat) :
  forall (start : Z) (arr : list num),
    origin <= start -> 0 <= start ->
    start + Z.of_nat len <= Z.of_nat (length arr) ->
    exists arr',
      Fire.schedule_loop infl origin (seqZ start (Z.of_nat len)) arr
        (stepped infl ((start - origin) / 12) base) = Ok arr'
      /\ length arr' = length arr
      /\ (forall i : nat,
            Z.of_nat i < start \/ start + Z.of_nat len <= Z.of_nat i ->
            arr' !! i = arr !! i)
      /\ (forall i : nat,
            start <= Z.of_nat i < start + Z.of_nat len ->
            arr' !! i = Some (stepped infl ((Z.of_nat i - origin) / 12) base)).
Proof.
  induction len as [|len IH]; intros start arr Ho Hs Hlen.
  - exists arr. cbn. repeat split; try reflexivity. intros i Hi. lia.
  - rewrite Nat2Z.inj_succ, seqZ_cons by lia.
    cbn [Fire.schedule_loop].
    rewrite np_setitem_in_range by lia. cbn.
    replace (Z.pred (Z.succ (Z.of_nat len))) with (Z.of_nat len) by lia.
    assert (Hnext : (if (start + 1 - origin) mod 12 =? 0
                     then stepped infl ((start - origin) / 12) base
                            .* (one .+ infl)
                     else stepped infl ((start - origin) / 12) base)
                    = stepped infl ((Z.succ start - origin) / 12) base).
    { replace (Z.succ start - origin) with (start - origin + 1) by lia.
      replace (start + 1 - origin) with (start - origin + 1) by lia.
      destruct ((start - origin + 1) mod 12 =? 0) eqn:E.
      - apply Z.eqb_eq in E.
        replace ((start - origin + 1) / 12) with ((start - origin) / 12 + 1)
          by (Z.div_mod_to_equations; lia).
        rewrite stepped_next by (Z.div_mod_to_equations; lia). reflexivity.
      - apply Z.eqb_neq in E.
        replace ((start - origin + 1) / 12) with ((start - origin) / 12)
          by (Z.div_mod_to_equations; lia).
        reflexivity. }
    rewrite Hnext.
    destruct (IH (Z.succ start)
                 (<[Z.to_nat start := stepped infl ((start - origin) / 12) base]> arr))
      as (arr' & Hrun & Hl & Hframe & Hvals);
      [lia | lia | rewrite length_insert; lia |].
    exists arr'. split; [exact Hrun|].
    rewrite length_insert in Hl. split; [exact Hl|].
    split.
    + intros i Hi. rewrite Hframe by lia.
      apply list_lookup_insert_ne. lia.
    + intros i Hi. destruct (decide (Z.of_nat i = start)) as [Heq|Hne].
      * rewrite Hframe by lia. subst start. rewrite Nat2Z.id.
        apply list_lookup_insert_eq. lia.
      * apply Hvals. lia.
Qed.

Lemma fire_schedule_closed_form (req : Fire.FireRequest) :
  let T_acc := Fire.years_to_retire req * Fire.frequency req in
  let T_ret := Fire.years_in_retirement req * Fire.frequency req in
  0 <= T_acc -> 0 <= T_ret ->
  exists contrib draw : list num,
    Fire.fire_schedule req = Ok (contrib, draw)
    /\ length contrib = Z.to_nat (T_acc + T_ret)
    /\ length draw = Z.to_nat (T_acc + T_ret)
    /\ forall m : nat, Z.of_nat m < T_acc + T_ret ->
         contrib !! m
         = Some (if Z.of_nat m <? T_acc
                 then stepped (Fire.inflation req) (Z.of_nat m / 12)
                        (Fire.monthly_disposable req)
                 else zero)
         /\ draw !! m
            = Some (if Z.of_nat m <? T_acc
                    then zero
                    else stepped (Fire.inflation req)
                           ((Z.of_nat m - T_acc) / 12)
                           (Fire.monthly_drawdown req)).
Proof.
  intros T_acc T_ret Hacc Hret. unfold Fire.fire_schedule.
  fold T_acc T_ret. cbv zeta. unfold np_zeros.
  destruct (T_acc + T_ret <? 0) eqn:E; [apply Z.ltb_lt in E; lia|]. cbn.
  destruct (schedule_loop_closed (Fire.inflation req) 0
              (Fire.monthly_disposable req) (Z.to_nat T_acc) 0
              (replicate (Z.to_nat (T_acc + T_ret)) zero))
    as (contrib & Hc & Hcl & Hcf & Hcv);
    [lia | lia | rewrite length_replicate; lia |].
  rewrite Z2Nat.id in Hc by lia.
  change ((0 - 0) / 12) with 0 in Hc. change (stepped _ 0 ?a) with a in Hc.
  rewrite Hc. cbn.
  destruct (schedule_loop_closed (Fire.inflation req) T_acc
              (Fire.monthly_drawdown req) (Z.to_nat T_ret) T_acc
              (replicate (Z.to_nat (T_acc + T_ret)) zero))
    as (draw & Hd & Hdl & Hdf & Hdv);
    [lia | lia | rewrite length_replicate; lia |].
  rewrite Z2Nat.id in Hd by lia.
  rewrite Z.sub_diag in Hd. change (0 / 12) with 0 in Hd.
  change (stepped _ 0 ?a) with a in Hd.
  replace (T_acc + T_ret - T_acc) with T_ret by lia.
  rewrite Hd. cbn.
  exists contrib, draw. split; [reflexivity|].
  rewrite length_replicate in Hcl, Hdl.
  split; [exact Hcl|]. split; [exact Hdl|].
  intros m Hm.
  destruct (Z.of_nat m <? T_acc) eqn:Em.
  - apply Z.ltb_lt in Em. split.
    + rewrite Hcv by lia. rewrite Z.sub_0_r. reflexivity.
    + rewrite Hdf by lia. apply lookup_replicate_2. lia.
  - apply Z.ltb_ge in Em. split.
    + rewrite Hcf by lia. apply lookup_replicate_2. lia.
    + rewrite Hdv by lia. reflexivity.
Qed.

(** X11.  For non-negative horizons the two schedules of the FIRE
    calculator are always built, each with one entry per period.  During
    accumulation period [m] contributes [monthly_disposable] multiplied
    [m // 12] times by [1 + inflation] and withdraws nothing; in
    retirement period [m] contributes nothing and withdraws
    [monthly_drawdown] multiplied [(m - T_acc) // 12] times by
    [1 + inflation].  The step comes every 12 periods whatever
    [frequency] is. *)
Theorem fire_schedules_step_every_twelve_periods (req : Fire.FireRequest) :
  let T_acc := Fire.years_to_retire req * Fire.frequency req in
  let T_ret := Fire.years_in_retirement req * Fire.frequency req in
  0 <= T_acc -> 0 <= T_ret ->
  exists contrib draw : list num,
    Fire.fire_schedule req = Ok (contrib, draw)
    /\ length contrib = Z.to_nat (T_acc + T_ret)
    /\ length draw = Z.to_nat (T_acc + T_ret)
    /\ forall m : nat, Z.of_nat m < T_acc + T_ret ->
         contrib !! m
         = Some (if Z.of_nat m <? T_acc
                 then stepped (Fire.inflation req) (Z.of_nat m / 12)
                        (Fire.monthly_disposable req)
                 else zero)
         /\ draw !! m
            = Some (if Z.of_nat m <? T_acc
                    then zero
                    else stepped (Fire.inflation req)
                           ((Z.of_nat m - T_acc) / 12)
                           (Fire.monthly_drawdown req)).
Proof. exact (fire_schedule_closed_form req). Qed.


(** *** The longevity of one path *)

Lemma first_zero_scan (path : list num) (len : nat) :
  forall start : Z,
    0 <= start -> start + Z.of_nat len <= Z.of_nat (length path) ->
    (Fire.first_zero path (seqZ start (Z.of_nat len)) = Ok None
     /\ forall t, start <= t < start + Z.of_nat len ->
          (nth (Z.to_nat t) path zero .<= zero) = false)
    \/ (exists t,
          Fire.first_zero path (seqZ start (Z.of_nat len)) = Ok (Some t)
          /\ start <= t < start + Z.of_nat len
          /\ (nth (Z.to_nat t) path zero .<= zero) = true
          /\ forall t', start <= t' < t ->
               (nth (Z.to_nat t') path zero .<= zero) = false).
Proof.
  induction len as [|len IH]; intros start Hs Hlen.
  - left. split; [reflexivity|]. intros t Ht. lia.
  - rewrite Nat2Z.inj_succ, seqZ_cons by lia.
    replace (Z.pred (Z.succ (Z.of_nat len))) with (Z.of_nat len) by lia.
    cbn [Fire.first_zero]. rewrite py_index_in_range by lia. cbn.
    destruct (nth (Z.to_nat start) path zero .<= zero) eqn:E.
    + right. exists start. split; [reflexivity|]. split; [lia|].
      split; [exact E|]. intros t' Ht'. lia.
    + destruct (IH (Z.succ start) ltac:(lia) ltac:(lia))
        as [(Hn & Hall)|(t & Ht & Hr & Hz & Hbefore)].
      * left. split; [exact Hn|]. intros t Ht.
        destruct (decide (t = start)) as [->|Hne]; [exact E|].
        apply Hall. lia.
      * right. exists t. split; [exact Ht|]. split; [lia|].
        split; [exact Hz|]. intros t' Ht'.
        destruct (decide (t' = start)) as [->|Hne]; [exact E|].
        apply Hbefore. lia.
Qed.

(** X12.  On a path with one entry per period, the longevity is always
    computed and lies in [1..T_ret] (0 when there is no retirement): it
    is the first [k >= 1] with [path[T_acc + k] <= 0], and [T_ret] when
    there is none.  In particular it is [T_ret] exactly when no period
    strictly before the last one is depleted: a path that runs dry in the
    very last period is reported like one that never does. *)
Theorem longevity_is_the_first_depleted_period
    (T_acc T_ret : Z) (path : list num) :
  0 <= T_acc -> 0 <= T_ret ->
  length path = Z.to_nat (T_acc + T_ret + 1) ->
  exists k : Z,
    Fire.time_to_zero T_acc T_ret path = Ok k
    /\ (if T_ret =? 0 then k = 0 else 1 <= k <= T_ret)
    /\ (forall j, 1 <= j < k ->
          (nth (Z.to_nat (T_acc + j)) path zero .<= zero) = false)
    /\ (k < T_ret ->
        (nth (Z.to_nat (T_acc + k)) path zero .<= zero) = true)
    /\ (k = T_ret <->
        forall j, 1 <= j < T_ret ->
          (nth (Z.to_nat (T_acc + j)) path zero .<= zero) = false).
Proof.
  intros Hacc Hret Hlen. unfold Fire.time_to_zero.
  destruct (first_zero_scan path (Z.to_nat T_ret) (T_acc + 1))
    as [(Hn & Hall)|(t & Ht & Hr & Hz & Hbefore)]; [lia | lia | |];
    rewrite Z2Nat.id in * by lia.
  - rewrite Hn. cbn. exists T_ret. split; [reflexivity|].
    split; [destruct (T_ret =? 0) eqn:E; [apply Z.eqb_eq in E|]; lia|].
    split; [intros j Hj; apply Hall; lia|].
    split; [lia|].
    split; [intros _ j Hj; apply Hall; lia | reflexivity].
  - rewrite Ht. cbn. exists (Z.max 0 (t - T_acc)).
    split; [reflexivity|].
    replace (Z.max 0 (t - T_acc)) with (t - T_acc) by lia.
    split; [destruct (T_ret =? 0) eqn:E; [apply Z.eqb_eq in E|]; lia|].
    split; [intros j Hj; apply Hbefore; lia|].
    split; [intros _; replace (T_acc + (t - T_acc)) with t by lia; exact Hz|].
    split.
    + intros Hk j Hj. apply Hbefore. lia.
    + intros Hall.
      destruct (decide (t - T_acc = T_ret)) as [Heq|Hne]; [exact Heq|].
      specialize (Hall (t - T_acc) ltac:(lia)).
      replace (T_acc + (t - T_acc)) with t in Hall by lia. congruence.
Qed.

End FireScheduleFacts.

(** ** No negative balance in the FIRE calculator *)

Section FloorAtZero.
Context {num : Type} {arith : Arith num} {libm : Libm num} {rng : Rng num}.
Hypothesis floor_at_zero : forall a : num, (np_maximum a zero .< zero) = false.

Lemma fire_wealth_path_floor (factors contrib draw : list num) :
  forall w : num,
    Forall (fun v => (v .< zero) = false)
           (Fire.wealth_path w factors contrib draw).
Proof.
  revert contrib draw.
  induction factors as [|f factors IH]; intros contrib draw w; [constructor|].
  destruct contrib as [|c contrib]; [constructor|].
  destruct draw as [|d draw]; [constructor|].
  cbn [Fire.wealth_path]. constructor; [apply floor_at_zero | apply IH].
Qed.

Lemma fire_wealth_floor (req : Fire.FireRequest) (w : world)
    (wealth : list (list num)) :
  Fire.fire_wealth req w = Ok wealth ->
  Forall (fun path =>
            exists later : list num,
              path = Fire.initial_balance req :: later
              /\ Forall (fun v => (v .< zero) = false) later)
         wealth.
Proof.
  unfold Fire.fire_wealth. cbv zeta. intros H.
  bind_inv H. bind_inv H. bind_inv H. destruct x1 as [contrib draw].
  bind_inv H. destruct x1 as [Z st']. injection H as <-.
  apply Forall_map. apply Forall_forall. intros row _. cbn.
  eexists. split; [reflexivity|]. apply fire_wealth_path_floor.
Qed.

End FloorAtZero.

Lemma float_floor_at_zero (a : float) :
  (np_maximum a zero .< (zero : float)) = false.
Proof.
  unfold np_maximum. cbn [isnan ltb float_arith].
  change (@zero float float_arith) with 0%float.
  destruct (is_nan a) eqn:Hn.
  - unfold is_nan in Hn. apply negb_true_iff in Hn.
    rewrite FloatAxioms.eqb_spec in Hn. rewrite FloatAxioms.ltb_spec.
    destruct (Prim2SF a) as [s|s| |s m e]; try reflexivity.
    + destruct s; cbv in Hn; discriminate Hn.
    + unfold SFeqb, SFcompare in Hn.
      rewrite Z.compare_refl, Pos.compare_cont_refl in Hn.
      destruct s; discriminate Hn.
  - change (is_nan 0) with false. cbv iota.
    destruct (a <? 0)%float eqn:E; [reflexivity | exact E].
Qed.

(** X13.  On binary64, for every libm and generator: each simulated FIRE
    path starts at [initial_balance], and no later entry is negative
    (each is NaN or at least 0) -- the floor [np.maximum(wealth, 0.0)] of
    the source, which a negative starting balance escapes. *)
Theorem fire_wealth_is_never_negative (L : Libm float) (R : Rng float)
    (req : Fire.FireRequest) (w : world) (wealth : list (list float)) :
  Fire.fire_wealth req w = Ok wealth ->
  Forall (fun path =>
            exists later : list float,
              path = Fire.initial_balance req :: later
              /\ Forall (fun v => (v .< zero) = false) later)
         wealth.
Proof. apply fire_wealth_floor. exact float_floor_at_zero. Qed.

Lemma fire_wealth_never_negative_witness :
  exists wealth : list (list float),
    Fire.fire_wealth (libm := Sample.float_libm) (rng := Sample.float_rng)
      spending_plan Sample.float_world = Ok wealth
    /\ length wealth = 3%nat
    /\ Forall (fun path =>
                 exists later : list float,
                   path = Fire.initial_balance spending_plan :: later
                   /\ Forall (fun v => (v .< zero) = false) later)
              wealth.
Proof.
  eexists. split; [vm_compute; reflexivity|]. split; [reflexivity|].
  apply (fire_wealth_is_never_negative Sample.float_libm Sample.float_rng
           spending_plan Sample.float_world).
  vm_compute. reflexivity.
Defined.

(** *** The statements above at concrete plans *)

Lemma compound_contributions_witness :
  exists s : list float,
    Compound.contrib_schedule (libm := Sample.float_libm) growing_request = Ok s
    /\ s = replicate 4 (Binary64.Z2f 300) ++ replicate 4 (Binary64.Z2f 450)
    /\ length s = (Z.to_nat (Compound.years growing_request)
                   * Z.to_nat (Compound.frequency growing_request))%nat
    /\ forall t : nat, (t < length s)%nat ->
         exists p : float,
           py_pow (libm := Sample.float_libm)
             (one .+ Compound.contribution_growth growing_request)
             (of_Z (Z.of_nat t / Compound.frequency growing_request)) = Ok p
           /\ s !! t = Some (Compound.annual_contribution growing_request .* p
                             ./ of_Z (Compound.frequency growing_request)).
Proof.
  eexists. split; [vm_compute; reflexivity|].
  split; [vm_compute; reflexivity|].
  apply (compound_contributions_step_every_frequency
           (libm := Sample.float_libm) growing_request).
  vm_compute. reflexivity.
Defined.

Lemma fire_schedules_witness :
  exists contrib draw : list float,
    Fire.fire_schedule quarterly_request = Ok (contrib, draw)
    /\ length contrib = Z.to_nat (8 + 4)
    /\ length draw = Z.to_nat (8 + 4)
    /\ forall m : nat, Z.of_nat m < 8 + 4 ->
         contrib !! m
         = Some (if Z.of_nat m <? 8
                 then stepped (Fire.inflation quarterly_request)
                        (Z.of_nat m / 12)
                        (Fire.monthly_disposable quarterly_request)
                 else zero)
         /\ draw !! m
            = Some (if Z.of_nat m <? 8
                    then zero
                    else stepped (Fire.inflation quarterly_request)
                           ((Z.of_nat m - 8) / 12)
                           (Fire.monthly_drawdown quarterly_request)).
Proof.
  exact (fire_schedules_step_every_twelve_periods quarterly_request
           ltac:(simpl; lia) ltac:(simpl; lia)).
Defined.

Lemma longevity_witness :
  exists k : Z,
    Fire.time_to_zero 1 3 [one; one; one; zero; zero : float] = Ok k
    /\ (if 3 =? 0 then k = 0 else 1 <= k <= 3)
    /\ (forall j, 1 <= j < k ->
          (nth (Z.to_nat (1 + j)) [one; one; one; zero; zero : float] zero
             .<= zero) = false)
    /\ (k < 3 ->
        (nth (Z.to_nat (1 + k)) [one; one; one; zero; zero : float] zero
           .<= zero) = true)
    /\ (k = 3 <->
        forall j, 1 <= j < 3 ->
          (nth (Z.to_nat (1 + j)) [one; one; one; zero; zero : float] zero
             .<= zero) = false).
Proof.
  exact (longevity_is_the_first_depleted_period 1 3
           [one; one; one; zero; zero : float]
           ltac:(lia) ltac:(lia) eq_refl).
Defined.

(** ** Exact arithmetic: rounding, percentiles and medians *)

Section ExactRounding.
Local Open Scope Q_scope.





End ExactRounding.


Section ExactOrderStatistics.
Local Open Scope Q_scope.








End ExactOrderStatistics.

(** ** The shape of the three simulated responses *)

Section ResponseShapes.
Context {num : Type} {arith : Arith num} {libm : Libm num} {rng : Rng num}.

Lemma randn_Ok_inv (n T : Z) (st st' : rng_state) (M : list (list num)) :
  randn n T st = Ok (M, st') ->
  0 <= n /\ 0 <= T /\ length M = Z.to_nat n
  /\ Forall (fun row => length row = Z.to_nat T) M.
Proof.
  unfold randn. destruct ((n <? 0) || (T <? 0)) eqn:E; [discriminate|].
  apply orb_false_elim in E as [E1 E2].
  apply Z.ltb_ge in E1. apply Z.ltb_ge in E2.
  intros H. injection H as HM.
  pose proof (gauss_matrix_shape (Z.to_nat n) (Z.to_nat T) st) as [H1 H2].
  rewrite HM in H1, H2. cbn [fst] in H1, H2. auto.
Qed.

Lemma compound_horizon (req : Compound.SimRequest) (w : world)
    (wealth : list (list num)) (schedule : list num) :
  Compound.simulate_wealth req w = Ok (wealth, schedule) ->
  0 <= Compound.years req * Compound.frequency req
  /\ length wealth = Z.to_nat (Compound.n_sims req).
Proof.
  unfold Compound.simulate_wealth. cbv zeta. intros H.
  do 4 bind_inv H. bind_inv H. destruct x3 as [shocks st'].
  injection H as <- _.
  unfold random_normal in Hx3.
  match type of Hx3 with
  | (if ?c then _ else _) = _ => destruct c; [discriminate Hx3|]
  end.
  bind_inv Hx3. destruct x3 as [Z st'']. injection Hx3 as <- _.
  apply randn_Ok_inv in Hx4 as (Hn & HT & Hlen & _).
  rewrite !length_map. auto.
Qed.

Lemma drawdown_horizon (req : Drawdown.DrawdownRequest) (w : world)
    (prices dd : list (list num)) :
  Drawdown.drawdown_paths req w = Ok (prices, dd) ->
  0 <= Drawdown.years req * Drawdown.frequency req
  /\ length prices = Z.to_nat (Drawdown.n_sims req)
  /\ length dd = Z.to_nat (Drawdown.n_sims req).
Proof.
  unfold Drawdown.drawdown_paths. cbv zeta. intros H.
  do 2 bind_inv H. bind_inv H. destruct x1 as [Z st'].
  injection H as <- <-.
  apply randn_Ok_inv in Hx1 as (Hn & HT & Hlen & _).
  rewrite !length_map. auto.
Qed.

Lemma fire_horizon (req : Fire.FireRequest) (w : world)
    (wealth : list (list num)) :
  Fire.fire_wealth req w = Ok wealth ->
  0 <= Fire.years_to_retire req * Fire.frequency req
       + Fire.years_in_retirement req * Fire.frequency req
  /\ length wealth = Z.to_nat (Fire.n_sims req).
Proof.
  unfold Fire.fire_wealth. cbv zeta. intros H.
  do 2 bind_inv H. bind_inv H. destruct x1 as [contrib draw].
  bind_inv H. destruct x1 as [Z st']. injection H as <-.
  apply randn_Ok_inv in Hx2 as (Hn & HT & Hlen & _).
  rewrite !length_map. auto.
Qed.

Lemma percentile_axis0_length (M : list (list num)) (ncols : nat) (q : Z)
    (l : list num) :
  percentile_axis0 M ncols q = Ok l -> length l = ncols.
Proof.
  intros H. apply traverse_length in H. rewrite length_seq in H. exact H.
Qed.

Lemma length_sanitize_list (l : list num) : length (sanitize_list l) = length l.
Proof. unfold sanitize_list. apply length_map. Qed.

Lemma length_round_sanitize (l : list num) (d : Z) :
  length (round_list (sanitize_list l) d) = length l.
Proof. unfold round_list. rewrite length_map. apply length_sanitize_list. Qed.

(** X15.  A response of any of the three simulators exists only for a
    non-negative number of periods [T], and then every percentile band
    has exactly [T + 1] entries, one per entry of [times] (compound) or
    of [labels] (drawdown, FIRE); the FIRE response marks the start of
    retirement at index [years_to_retire * frequency]. *)
Theorem bands_cover_every_period :
  (forall (req : Compound.SimRequest) (w : world) (out : Compound.SimResponse),
      Compound.simulate_paths req w = Ok out ->
      let T := Compound.years req * Compound.frequency req in
      let pct := Compound.r_percentiles out in
      0 <= T
      /\ Compound.times out = seqZ 0 (T + 1)
      /\ length (Compound.p10 pct) = Z.to_nat (T + 1)
      /\ length (Compound.p25 pct) = Z.to_nat (T + 1)
      /\ length (Compound.p50 pct) = Z.to_nat (T + 1)
      /\ length (Compound.p75 pct) = Z.to_nat (T + 1)
      /\ length (Compound.p90 pct) = Z.to_nat (T + 1)
      /\ length (Compound.p50_real pct) = Z.to_nat (T + 1))
  /\ (forall (req : Drawdown.DrawdownRequest) (w : world)
             (out : Drawdown.DrawdownResponse),
        Drawdown.drawdown req w = Ok out ->
        let T := Drawdown.years req * Drawdown.frequency req in
        let pct := Drawdown.r_percentiles out in
        0 <= T
        /\ length (Drawdown.labels out) = Z.to_nat (T + 1)
        /\ length (Drawdown.p10 pct) = Z.to_nat (T + 1)
        /\ length (Drawdown.p25 pct) = Z.to_nat (T + 1)
        /\ length (Drawdown.p50 pct) = Z.to_nat (T + 1)
        /\ length (Drawdown.p75 pct) = Z.to_nat (T + 1)
        /\ length (Drawdown.p90 pct) = Z.to_nat (T + 1))
  /\ (forall (req : Fire.FireRequest) (w : world) (out : Fire.FireResponse),
        Fire.fire req w = Ok out ->
        let T := Fire.years_to_retire req * Fire.frequency req
                 + Fire.years_in_retirement req * Fire.frequency req in
        let pct := Fire.r_percentiles out in
        0 <= T
        /\ length (Fire.labels out) = Z.to_nat (T + 1)
        /\ length (Fire.p10 pct) = Z.to_nat (T + 1)
        /\ length (Fire.p25 pct) = Z.to_nat (T + 1)
        /\ length (Fire.p50 pct) = Z.to_nat (T + 1)
        /\ length (Fire.p75 pct) = Z.to_nat (T + 1)
        /\ length (Fire.p90 pct) = Z.to_nat (T + 1)
        /\ Fire.retirement_start_index (Fire.r_summary out)
           = Fire.years_to_retire req * Fire.frequency req).
Proof.
  split; [|split]; intros req w out Hout; cbv zeta.
  - unfold Compound.simulate_paths in Hout. cbv zeta in Hout.
    bind_inv Hout. destruct x as [wealth schedule].
    apply compound_horizon in Hx as [HT _].
    apply bind_Ok_inv in Hout as (q10 & H10 & Hout).
    apply bind_Ok_inv in Hout as (q25 & H25 & Hout).
    apply bind_Ok_inv in Hout as (q50 & H50 & Hout).
    apply bind_Ok_inv in Hout as (q75 & H75 & Hout).
    apply bind_Ok_inv in Hout as (q90 & H90 & Hout).
    apply bind_Ok_inv in Hout as (q50r & H50r & Hout).
    do 5 bind_inv Hout. injection Hout as <-.
    cbn [Compound.r_percentiles Compound.times Compound.p10 Compound.p25
         Compound.p50 Compound.p75 Compound.p90 Compound.p50_real].
    unfold tolist_safe. rewrite !length_sanitize_list.
    apply percentile_axis0_length in H10, H25, H50, H75, H90, H50r.
    repeat split; assumption.
  - unfold Drawdown.drawdown in Hout. cbv zeta in Hout.
    bind_inv Hout. destruct x as [prices dd].
    apply drawdown_horizon in Hx as [HT _].
    apply bind_Ok_inv in Hout as (q10 & H10 & Hout).
    apply bind_Ok_inv in Hout as (q25 & H25 & Hout).
    apply bind_Ok_inv in Hout as (q50 & H50 & Hout).
    apply bind_Ok_inv in Hout as (q75 & H75 & Hout).
    apply bind_Ok_inv in Hout as (q90 & H90 & Hout).
    do 3 bind_inv Hout.
    apply bind_Ok_inv in Hout as (labels & Hlabels & Hout).
    injection Hout as <-.
    cbn [Drawdown.r_percentiles Drawdown.labels Drawdown.p10 Drawdown.p25
         Drawdown.p50 Drawdown.p75 Drawdown.p90].
    rewrite !length_round_sanitize.
    apply percentile_axis0_length in H10, H25, H50, H75, H90.
    apply traverse_length in Hlabels. rewrite length_seqZ in Hlabels.
    repeat split; assumption.
  - unfold Fire.fire in Hout. cbv zeta in Hout.
    bind_inv Hout. apply fire_horizon in Hx as [HT _].
    apply bind_Ok_inv in Hout as (q10 & H10 & Hout).
    apply bind_Ok_inv in Hout as (q25 & H25 & Hout).
    apply bind_Ok_inv in Hout as (q50 & H50 & Hout).
    apply bind_Ok_inv in Hout as (q75 & H75 & Hout).
    apply bind_Ok_inv in Hout as (q90 & H90 & Hout).
    do 2 bind_inv Hout.
    apply bind_Ok_inv in Hout as (labels & Hlabels & Hout).
    injection Hout as <-.
    cbn [Fire.r_percentiles Fire.r_summary Fire.labels Fire.p10 Fire.p25
         Fire.p50 Fire.p75 Fire.p90 Fire.retirement_start_index].
    rewrite !length_round_sanitize.
    apply percentile_axis0_length in H10, H25, H50, H75, H90.
    apply traverse_length in Hlabels. rewrite length_seqZ in Hlabels.
    repeat split; assumption.
Qed.

End ResponseShapes.

(** ** Exact arithmetic: what the summaries say about the bands *)

Section ExactEndpoints.
Context (L : Libm Q) (R : Rng Q).
Local Open Scope Q_scope.








(** *** Probabilities and longevity *)







(** *** Drawdowns *)

















End ExactEndpoints.



(** ** Exact arithmetic: depletion in the FIRE calculator *)

Section ExactDepletion.
Context (L : Libm Q) (R : Rng Q).
Local Open Scope Q_scope.





End ExactDepletion.


(** *** The statements above at concrete requests *)




Lemma bands_cover_witness :
  exists out : Drawdown.DrawdownResponse,
    Drawdown.drawdown (libm := Sample.libm) (rng := Sample.rng)
      short_drawdown Sample.world0 = Ok out
    /\ length (Drawdown.labels out) = 3%nat
    /\ length (Drawdown.p50 (Drawdown.r_percentiles out)) = 3%nat.
Proof.
  eexists. split; [vm_compute; reflexivity|].
  destruct (bands_cover_every_period
              (libm := Sample.libm) (rng := Sample.rng))
    as (_ & Hd & _).
  destruct (Hd short_drawdown Sample.world0 _ ltac:(vm_compute; reflexivity))
    as (_ & Hl & _ & _ & H50 & _).
  split; [exact Hl | exact H50].
Defined.


(** ** Exact arithmetic: a loan at a constant rate *)

Section ExactLoan.
Context (L : Libm Q).
Local Open Scope Q_scope.
Import Mortgage.





End ExactLoan.

(** *** The two constant-rate loans *)

Section ExactPayoff.
Context (L : Libm Q).
Local Open Scope Q_scope.
Import Mortgage.





End ExactPayoff.

(** ** Exact arithmetic: the [/suggestions] endpoint *)

Section ExactSuggestion.
Context (L : Libm Q).
Local Open Scope Q_scope.









End ExactSuggestion.


(** *** The statements above at concrete requests *)




(** ** Exact arithmetic: which compound requests are answered *)

Section ExactCompound.
Context (L : Libm Q) (R : Rng Q).
Local Open Scope Q_scope.














End ExactCompound.


(** *** The statements above at concrete requests *)





(** ** Exact arithmetic: the bands of the FIRE calculator *)

Section ExactFireBands.
Context (L : Libm Q) (R : Rng Q).
Local Open Scope Q_scope.




End ExactFireBands.

